(** * CPM vibration feature extractor: a shallow embedding and its properties

    The development follows [cpp_feature_extractor/src/feature_extractor.cpp]
    and its header [feature_extractor.hpp].

    Conventions of the embedding.
    - [double] is read twice.  Over exact arithmetic a sample is a real
      number of the Standard Library ([R]), [std::sqrt], [std::abs],
      [std::cos] and [std::sin] are the real functions, and the constant
      [PI] of the header is the real number pi; rounding, overflow to
      infinity and NaN are outside this reading, and a property that
      rests on the exact value of a sum, a quotient or a root says that
      it is one over exact arithmetic.  In the module [Binary64] a
      [double] is a binary64 number (a primitive [float]) and every
      operation rounds as IEEE 754 prescribes; that module has the
      functions that use nothing but [+ - * /], [std::sqrt], [std::abs]
      and comparisons, and it shows where rounding or NaN departs from
      the exact reading.  The transform is read over exact arithmetic
      only: the standard does not fix the digits of [std::cos] and
      [std::sin].
    - [size_t] is a 64-bit unsigned integer: a binary natural number ([N])
      with the wrap-around of every operation that can grow written out.
    - [std::vector<T>] is [list T]; [operator[]] outside the bounds has no
      defined result, which the embedding renders as [None].
    - A [while]/[for] loop whose exit depends on wrapped arithmetic runs on
      fuel; [None] then also stands for a loop that never exits.
    - A thrown exception is a value of [outcome]. *)

From Stdlib Require Import Floats.PrimFloat.
From Stdlib Require Uint63 FloatOps SpecFloat.
From Stdlib Require Import String.
From Stdlib Require Import Reals Lra Lia List NArith ZArith Bool Arith.
From Stdlib Require Import ZifyNat ZifyN.
Import ListNotations.

(** [lia] is to reason about quotients and remainders as well. *)
Ltac Zify.zify_post_hook ::= Z.to_euclidean_division_equations.

(** A decimal literal of the source stands for the binary64 number nearest
    to it, as in C++. *)
Set Warnings "-inexact-float".

(** ** Results of partial computations *)

Definition bind {A B : Type} (m : option A) (k : A -> option B) : option B :=
  match m with
  | Some a => k a
  | None => None
  end.

Notation "x <- m ;; k" := (bind m (fun x => k))
  (at level 61, m at next level, right associativity).
Notation "' p <- m ;; k" := (bind m (fun x => match x with p => k end))
  (at level 61, p pattern, m at next level, right associativity).

(** [std::invalid_argument] is the only exception the extractor throws. *)
Inductive exception : Type :=
| invalid_argument (what : string).

Inductive outcome (A : Type) : Type :=
| Returns (a : A)
| Throws (e : exception).

Arguments Returns {A} a.
Arguments Throws {A} e.

(** ** [size_t] *)

Module SizeT.

Abbreviation size_t := N (only parsing).

Definition modulus : N := 2 ^ 64.

Definition wrap (x : N) : size_t := (x mod modulus)%N.

(** [x << 1] *)
Definition shl1 (x : size_t) : size_t := wrap (N.shiftl x 1).

(** [x >> 1] *)
Definition shr1 (x : size_t) : size_t := N.shiftr x 1.

(** [x + y] *)
Definition add (x y : size_t) : size_t := wrap (x + y).

(** [static_cast<double>(n)] *)
Definition to_double (n : size_t) : R := IZR (Z.of_N n).

End SizeT.

(** ** [std::vector] *)

Module Vec.

Definition size {A : Type} (v : list A) : SizeT.size_t := N.of_nat (length v).

Definition empty {A : Type} (v : list A) : bool :=
  match v with
  | [] => true
  | _ :: _ => false
  end.

(** [v[i]] read. *)
Definition get {A : Type} (v : list A) (i : SizeT.size_t) : option A :=
  nth_error v (N.to_nat i).

Fixpoint upd {A : Type} (v : list A) (i : nat) (a : A) : list A :=
  match v, i with
  | [], _ => []
  | _ :: t, O => a :: t
  | h :: t, S j => h :: upd t j a
  end.

(** [v[i] = a]. *)
Definition set {A : Type} (v : list A) (i : SizeT.size_t) (a : A)
  : option (list A) :=
  if (i <? size v)%N then Some (upd v (N.to_nat i) a) else None.

(** [std::vector<T> v(n, a)] *)
Definition make {A : Type} (n : SizeT.size_t) (a : A) : list A :=
  repeat a (N.to_nat n).

End Vec.

(** ** Counted loops

    [for (size_t i = lo; i < hi; ++i) body]: the body runs for
    [i = lo, lo+1, ..., hi-1] in this order; [++i] cannot wrap below [hi]. *)

Fixpoint for_count {S : Type} (count : nat) (i : N)
  (body : N -> S -> option S) (s : S) : option S :=
  match count with
  | O => Some s
  | Datatypes.S c => s' <- body i s ;; for_count c (i + 1)%N body s'
  end.

Definition for_range {S : Type} (lo hi : N)
  (body : N -> S -> option S) (s : S) : option S :=
  for_count (N.to_nat (hi - lo)) lo body s.

(** ** [std::complex<double>] *)

Module Cx.

Definition complex : Type := (R * R)%type.

Definition re (z : complex) : R := fst z.
Definition im (z : complex) : R := snd z.

Definition zero : complex := (0, 0)%R.
Definition one : complex := (1, 0)%R.

Definition of_real (x : R) : complex := (x, 0%R).

Definition add (a b : complex) : complex :=
  (re a + re b, im a + im b)%R.

Definition sub (a b : complex) : complex :=
  (re a - re b, im a - im b)%R.

Definition mul (a b : complex) : complex :=
  (re a * re b - im a * im b, re a * im b + im a * re b)%R.

(** [std::abs(z)] *)
Definition abs (z : complex) : R := sqrt (re z * re z + im z * im z).

End Cx.

Open Scope string_scope.
Open Scope list_scope.
Open Scope R_scope.

(** ** The header's constants *)

(** [constexpr double PI = 3.14159265358979323846]: the number pi, written
    to the precision of a [double]. *)
Definition PI : R := Rtrigo1.PI.

(** Frequency bands [[low, high)] in Hz. *)
Definition FREQ_BANDS : list (R * R) :=
  [ (0, 100);
    (100, 500);
    (500, 1000);
    (1000, 2000);
    (2000, 10000) ].

(** The literal [1e-10] of the guards: the absolute threshold below which
    a denominator counts as zero. *)
Definition epsilon : R := 1e-10.

(** [std::max(a, b)]: [(a < b) ? b : a]. *)
Definition std_max (a b : R) : R := if Rlt_dec a b then b else a.

(** ** The extractor object and its record of results *)

Record FeatureExtractor : Type := mkFeatureExtractor {
  sample_rate_ : R
}.

Record SignalFeatures : Type := mkSignalFeatures {
  rms : R;
  peak : R;
  crest_factor : R;
  kurtosis : R;
  skewness : R;
  spectral_centroid : R;
  spectral_spread : R;
  fft_magnitude : list R;
  fft_frequencies : list R;
  bandpowers : list R;
  band_names : list string
}.

(** ** Construction and configuration *)

(** [FeatureExtractor::FeatureExtractor(double sample_rate)] *)
Definition construct (sample_rate : R) : outcome FeatureExtractor :=
  if Rle_dec sample_rate 0
  then Throws (invalid_argument "Sample rate must be positive")
  else Returns (mkFeatureExtractor sample_rate).

(** [void set_sample_rate(double rate)]: the object after the call, and
    how the call ended. *)
Definition set_sample_rate (rate : R) (this : FeatureExtractor)
  : FeatureExtractor * outcome unit :=
  if Rle_dec rate 0
  then (this, Throws (invalid_argument "Sample rate must be positive"))
  else (mkFeatureExtractor rate, Returns tt).

Definition get_sample_rate (this : FeatureExtractor) : R :=
  sample_rate_ this.

(** ** Time-domain statistics *)

Definition compute_rms (signal : list R) : R :=
  if Vec.empty signal then 0
  else
    let sum_sq := fold_left (fun sum_sq s => sum_sq + s * s) signal 0 in
    sqrt (sum_sq / SizeT.to_double (Vec.size signal)).

Definition compute_peak (signal : list R) : R :=
  if Vec.empty signal then 0
  else fold_left (fun max_abs s => std_max max_abs (Rabs s)) signal 0.

Definition compute_crest_factor (signal : list R) : R :=
  let rms := compute_rms signal in
  if Rlt_dec rms epsilon then 0
  else compute_peak signal / rms.

Definition compute_kurtosis (signal : list R) : R :=
  if (Vec.size signal <? 4)%N then 0
  else
    let n := Vec.size signal in
    let mean := fold_left (fun mean s => mean + s) signal 0 in
    let mean := mean / SizeT.to_double n in
    let '(m2, m4) :=
      fold_left
        (fun '(m2, m4) s =>
           let diff := s - mean in
           let diff2 := diff * diff in
           (m2 + diff2, m4 + diff2 * diff2))
        signal (0, 0) in
    let m2 := m2 / SizeT.to_double n in
    let m4 := m4 / SizeT.to_double n in
    if Rlt_dec m2 epsilon then 0
    else (m4 / (m2 * m2)) - 3.

Definition compute_skewness (signal : list R) : R :=
  if (Vec.size signal <? 3)%N then 0
  else
    let n := Vec.size signal in
    let mean := fold_left (fun mean s => mean + s) signal 0 in
    let mean := mean / SizeT.to_double n in
    let '(m2, m3) :=
      fold_left
        (fun '(m2, m3) s =>
           let diff := s - mean in
           let diff2 := diff * diff in
           (m2 + diff2, m3 + diff2 * diff))
        signal (0, 0) in
    let m2 := m2 / SizeT.to_double n in
    let m3 := m3 / SizeT.to_double n in
    let std_dev := sqrt m2 in
    if Rlt_dec std_dev epsilon then 0
    else m3 / (std_dev * std_dev * std_dev).

(** ** The spectral transform *)

(** A 64-bit value that doubles on every pass has wrapped to zero after 64
    passes, and one that halves has reached zero: a loop of that kind that
    has not left within [loop_fuel] passes never leaves. *)
Definition loop_fuel : nat := 65.

(** [while (p < n) p <<= 1;] *)
Fixpoint next_power_of_2_loop (fuel : nat) (p n : SizeT.size_t)
  : option SizeT.size_t :=
  match fuel with
  | O => None
  | S fuel' =>
      if (p <? n)%N then next_power_of_2_loop fuel' (SizeT.shl1 p) n
      else Some p
  end.

Definition next_power_of_2 (n : SizeT.size_t) : option SizeT.size_t :=
  next_power_of_2_loop loop_fuel 1%N n.

(** The body of [bit_reverse], [count] times:
    [result = (result << 1) | (n & 1); n >>= 1;] *)
Fixpoint bit_reverse_loop (count : nat) (result n : SizeT.size_t)
  : SizeT.size_t :=
  match count with
  | O => result
  | S c =>
      bit_reverse_loop c (N.lor (SizeT.shl1 result) (N.land n 1))
        (SizeT.shr1 n)
  end.

Definition bit_reverse (n bits : SizeT.size_t) : SizeT.size_t :=
  bit_reverse_loop (N.to_nat bits) 0%N n.

(** [for (size_t temp = n; temp > 1; temp >>= 1) ++bits;] *)
Fixpoint count_bits_loop (fuel : nat) (temp bits : SizeT.size_t)
  : option SizeT.size_t :=
  match fuel with
  | O => None
  | S fuel' =>
      if (1 <? temp)%N
      then count_bits_loop fuel' (SizeT.shr1 temp) (SizeT.add bits 1)
      else Some bits
  end.

(** [std::swap(x[i], x[j])] *)
Definition swap (x : list Cx.complex) (i j : SizeT.size_t)
  : option (list Cx.complex) :=
  a <- Vec.get x i ;;
  b <- Vec.get x j ;;
  x1 <- Vec.set x i b ;;
  Vec.set x1 j a.

(** One pass of the bit-reversal loop. *)
Definition permute_step (bits : SizeT.size_t) (i : SizeT.size_t)
  (x : list Cx.complex) : option (list Cx.complex) :=
  let j := bit_reverse i bits in
  if (i <? j)%N then swap x i j else Some x.

(** One pass of the innermost loop: the butterfly on [x[i + j]] and
    [x[i + j + len / 2]], then [w *= wlen]. *)
Definition butterfly (len i : SizeT.size_t) (wlen : Cx.complex)
  (j : SizeT.size_t) (st : list Cx.complex * Cx.complex)
  : option (list Cx.complex * Cx.complex) :=
  let '(x, w) := st in
  let lo := SizeT.add i j in
  let hi := SizeT.add (SizeT.add i j) (len / 2)%N in
  u <- Vec.get x lo ;;
  v <- Vec.get x hi ;;
  let t := Cx.mul w v in
  x1 <- Vec.set x lo (Cx.add u t) ;;
  x2 <- Vec.set x1 hi (Cx.sub u t) ;;
  Some (x2, Cx.mul w wlen).

(** [std::complex<double> w(1, 0); for (j = 0; j < len / 2; ++j) ...] *)
Definition fft_block (len i : SizeT.size_t) (wlen : Cx.complex)
  (x : list Cx.complex) : option (list Cx.complex) :=
  st <- for_range 0%N (len / 2)%N (butterfly len i wlen) (x, Cx.one) ;;
  Some (fst st).

(** [for (size_t i = 0; i < n; i += len) ...]; the loop leaves within [n]
    passes unless [len] is zero. *)
Fixpoint fft_blocks (fuel : nat) (n len i : SizeT.size_t)
  (wlen : Cx.complex) (x : list Cx.complex) : option (list Cx.complex) :=
  match fuel with
  | O => None
  | S fuel' =>
      if (i <? n)%N
      then x' <- fft_block len i wlen x ;;
           fft_blocks fuel' n len (SizeT.add i len) wlen x'
      else Some x
  end.

(** The twiddle factor of a stage: [wlen(cos(angle), sin(angle))] with
    [angle = -2 * PI / len]. *)
Definition twiddle (len : SizeT.size_t) : Cx.complex :=
  let angle := -2 * PI / SizeT.to_double len in
  (cos angle, sin angle).

(** [for (size_t len = 2; len <= n; len <<= 1) ...] *)
Fixpoint fft_stages (fuel : nat) (n len : SizeT.size_t)
  (x : list Cx.complex) : option (list Cx.complex) :=
  match fuel with
  | O => None
  | S fuel' =>
      if (len <=? n)%N
      then x' <- fft_blocks (S (N.to_nat n)) n len 0%N (twiddle len) x ;;
           fft_stages fuel' n (SizeT.shl1 len) x'
      else Some x
  end.

(** [void fft_recursive(std::vector<std::complex<double>>& x)]: the buffer
    after the call. *)
Definition fft_recursive (x : list Cx.complex) : option (list Cx.complex) :=
  let n := Vec.size x in
  if (n <=? 1)%N then Some x
  else
    bits <- count_bits_loop loop_fuel n 0%N ;;
    x1 <- for_range 0%N n (permute_step bits) x ;;
    fft_stages loop_fuel n 2%N x1.

(** One pass of the loop that fills the two halves of the spectrum. *)
Definition spectrum_step (x : list Cx.complex) (n : SizeT.size_t)
  (freq_resolution : R) (i : SizeT.size_t) (st : list R * list R)
  : option (list R * list R) :=
  let '(magnitudes, frequencies) := st in
  xi <- Vec.get x i ;;
  magnitudes' <-
    Vec.set magnitudes i (Cx.abs xi * 2 / SizeT.to_double n) ;;
  frequencies' <-
    Vec.set frequencies i (SizeT.to_double i * freq_resolution) ;;
  Some (magnitudes', frequencies').

Definition compute_fft (this : FeatureExtractor) (signal : list R)
  : option (list R * list R) :=
  if Vec.empty signal then Some ([], [])
  else
    n <- next_power_of_2 (Vec.size signal) ;;
    let x := Vec.make n Cx.zero in
    x <- for_range 0%N (Vec.size signal)
           (fun i x => s <- Vec.get signal i ;; Vec.set x i (Cx.of_real s))
           x ;;
    x <- fft_recursive x ;;
    let half_n := (n / 2)%N in
    let magnitudes := Vec.make half_n 0 in
    let frequencies := Vec.make half_n 0 in
    let freq_resolution := sample_rate_ this / SizeT.to_double n in
    st <- for_range 0%N half_n (spectrum_step x n freq_resolution)
            (magnitudes, frequencies) ;;
    let '(magnitudes, frequencies) := st in
    magnitudes <-
      (if negb (Vec.empty magnitudes)
       then m0 <- Vec.get magnitudes 0%N ;;
            Vec.set magnitudes 0%N (m0 / 2)
       else Some magnitudes) ;;
    Some (magnitudes, frequencies).

(** ** Frequency-domain statistics *)

(** [for (size_t i = 0; i < magnitudes.size() && i < frequencies.size(); ++i)]
    with a body that reads [magnitudes[i]] and [frequencies[i]]. *)
Definition for_each_bin {S : Type} (magnitudes frequencies : list R)
  (body : R -> R -> S -> option S) (s : S) : option S :=
  for_range 0%N (N.min (Vec.size magnitudes) (Vec.size frequencies))
    (fun i s =>
       m <- Vec.get magnitudes i ;;
       f <- Vec.get frequencies i ;;
       body m f s)
    s.

Definition compute_spectral_centroid (magnitudes frequencies : list R)
  : option R :=
  if Vec.empty magnitudes || Vec.empty frequencies then Some 0
  else
    st <- for_each_bin magnitudes frequencies
            (fun m f '(weighted_sum, total_power) =>
               let power := m * m in
               Some (weighted_sum + f * power, total_power + power))
            (0, 0) ;;
    let '(weighted_sum, total_power) := st in
    if Rlt_dec total_power epsilon then Some 0
    else Some (weighted_sum / total_power).

Definition compute_spectral_spread (magnitudes frequencies : list R)
  (centroid : R) : option R :=
  if Vec.empty magnitudes || Vec.empty frequencies then Some 0
  else
    st <- for_each_bin magnitudes frequencies
            (fun m f '(weighted_var, total_power) =>
               let power := m * m in
               let diff := f - centroid in
               Some (weighted_var + diff * diff * power, total_power + power))
            (0, 0) ;;
    let '(weighted_var, total_power) := st in
    if Rlt_dec total_power epsilon then Some 0
    else Some (sqrt (weighted_var / total_power)).

(** [freq >= band.first && freq < band.second] *)
Definition in_band (freq : R) (band : R * R) : bool :=
  (if Rge_dec freq (fst band) then true else false)
  && (if Rlt_dec freq (snd band) then true else false).

(** [for (size_t b = 0; b < FREQ_BANDS.size(); ++b)] with its [break]. *)
Fixpoint band_loop (count : nat) (b : SizeT.size_t) (freq power : R)
  (bandpowers : list R) : option (list R) :=
  match count with
  | O => Some bandpowers
  | S c =>
      band <- Vec.get FREQ_BANDS b ;;
      if in_band freq band
      then cur <- Vec.get bandpowers b ;;
           Vec.set bandpowers b (cur + power)
      else band_loop c (b + 1)%N freq power bandpowers
  end.

Definition compute_bandpower (magnitudes frequencies : list R)
  : option (list R) :=
  let bandpowers := Vec.make (Vec.size FREQ_BANDS) 0 in
  if Vec.empty magnitudes || Vec.empty frequencies then Some bandpowers
  else
    for_each_bin magnitudes frequencies
      (fun m f bandpowers =>
         let freq := f in
         let power := m * m in
         band_loop (N.to_nat (Vec.size FREQ_BANDS)) 0%N freq power bandpowers)
      bandpowers.

Definition get_band_names : list string :=
  [ "0-100 Hz"; "100-500 Hz"; "500-1000 Hz"; "1000-2000 Hz"; "2000+ Hz" ]%string.

(** ** The whole record *)

Definition extract_all (this : FeatureExtractor) (signal : list R)
  : option SignalFeatures :=
  let rms := compute_rms signal in
  let peak := compute_peak signal in
  let crest_factor := compute_crest_factor signal in
  let kurtosis := compute_kurtosis signal in
  let skewness := compute_skewness signal in
  '(magnitudes, frequencies) <- compute_fft this signal ;;
  spectral_centroid <- compute_spectral_centroid magnitudes frequencies ;;
  spectral_spread <-
    compute_spectral_spread magnitudes frequencies spectral_centroid ;;
  bandpowers <- compute_bandpower magnitudes frequencies ;;
  Some (mkSignalFeatures rms peak crest_factor kurtosis skewness
          spectral_centroid spectral_spread magnitudes frequencies
          bandpowers get_band_names).

(** ** The same functions in binary64

    The functions of the extractor that use nothing but the operations
    IEEE 754 rounds correctly, with [double] as the binary64 numbers:
    every [+], [-], [*], [/] and [std::sqrt] rounds to nearest on its
    own (a product and the sum that takes it are not fused), a comparison
    with NaN is false, and sums overflow to infinity. *)

Module Binary64.

Abbreviation double := float (only parsing).

(** [static_cast<double>(n)], rounded to nearest; the primitive conversion
    takes 63 bits, a larger value goes through its half with the lost bit
    kept sticky. *)
Definition to_double (n : SizeT.size_t) : double :=
  if (n <? 2 ^ 63)%N then PrimFloat.of_uint63 (Uint63.of_Z (Z.of_N n))
  else
    (PrimFloat.of_uint63
       (Uint63.of_Z (Z.of_N (N.lor (N.shiftr n 1) (N.land n 1)))) * 2)%float.

Definition epsilon : double := 1e-10%float.

(** [std::max(a, b)]: [(a < b) ? b : a]. *)
Definition std_max (a b : double) : double :=
  if PrimFloat.ltb a b then b else a.

Definition FREQ_BANDS : list (double * double) :=
  [ (0, 100);
    (100, 500);
    (500, 1000);
    (1000, 2000);
    (2000, 10000) ]%float.

Record FeatureExtractor : Type := mkFeatureExtractor {
  sample_rate_ : double
}.

Definition construct (sample_rate : double) : outcome FeatureExtractor :=
  if PrimFloat.leb sample_rate 0%float
  then Throws (invalid_argument "Sample rate must be positive")
  else Returns (mkFeatureExtractor sample_rate).

Definition set_sample_rate (rate : double) (this : FeatureExtractor)
  : FeatureExtractor * outcome unit :=
  if PrimFloat.leb rate 0%float
  then (this, Throws (invalid_argument "Sample rate must be positive"))
  else (mkFeatureExtractor rate, Returns tt).

Definition get_sample_rate (this : FeatureExtractor) : double :=
  sample_rate_ this.

Definition compute_rms (signal : list double) : double :=
  if Vec.empty signal then 0%float
  else
    let sum_sq :=
      fold_left (fun sum_sq s => (sum_sq + s * s)%float) signal 0%float in
    PrimFloat.sqrt (sum_sq / to_double (Vec.size signal)).

Definition compute_peak (signal : list double) : double :=
  if Vec.empty signal then 0%float
  else fold_left (fun max_abs s => std_max max_abs (PrimFloat.abs s))
         signal 0%float.

Definition compute_crest_factor (signal : list double) : double :=
  let rms := compute_rms signal in
  if PrimFloat.ltb rms epsilon then 0%float
  else (compute_peak signal / rms)%float.

Definition compute_kurtosis (signal : list double) : double :=
  if (Vec.size signal <? 4)%N then 0%float
  else
    let n := Vec.size signal in
    let mean := fold_left (fun mean s => (mean + s)%float) signal 0%float in
    let mean := (mean / to_double n)%float in
    let '(m2, m4) :=
      fold_left
        (fun '(m2, m4) s =>
           let diff := (s - mean)%float in
           let diff2 := (diff * diff)%float in
           ((m2 + diff2)%float, (m4 + diff2 * diff2)%float))
        signal (0%float, 0%float) in
    let m2 := (m2 / to_double n)%float in
    let m4 := (m4 / to_double n)%float in
    if PrimFloat.ltb m2 epsilon then 0%float
    else ((m4 / (m2 * m2)) - 3)%float.

Definition compute_skewness (signal : list double) : double :=
  if (Vec.size signal <? 3)%N then 0%float
  else
    let n := Vec.size signal in
    let mean := fold_left (fun mean s => (mean + s)%float) signal 0%float in
    let mean := (mean / to_double n)%float in
    let '(m2, m3) :=
      fold_left
        (fun '(m2, m3) s =>
           let diff := (s - mean)%float in
           let diff2 := (diff * diff)%float in
           ((m2 + diff2)%float, (m3 + diff2 * diff)%float))
        signal (0%float, 0%float) in
    let m2 := (m2 / to_double n)%float in
    let m3 := (m3 / to_double n)%float in
    let std_dev := PrimFloat.sqrt m2 in
    if PrimFloat.ltb std_dev epsilon then 0%float
    else (m3 / (std_dev * std_dev * std_dev))%float.

Definition for_each_bin {S : Type} (magnitudes frequencies : list double)
  (body : double -> double -> S -> option S) (s : S) : option S :=
  for_range 0%N (N.min (Vec.size magnitudes) (Vec.size frequencies))
    (fun i s =>
       m <- Vec.get magnitudes i ;;
       f <- Vec.get frequencies i ;;
       body m f s)
    s.

Definition compute_spectral_centroid (magnitudes frequencies : list double)
  : option double :=
  if Vec.empty magnitudes || Vec.empty frequencies then Some 0%float
  else
    st <- for_each_bin magnitudes frequencies
            (fun m f '(weighted_sum, total_power) =>
               let power := (m * m)%float in
               Some ((weighted_sum + f * power)%float,
                     (total_power + power)%float))
            (0%float, 0%float) ;;
    let '(weighted_sum, total_power) := st in
    if PrimFloat.ltb total_power epsilon then Some 0%float
    else Some (weighted_sum / total_power)%float.

Definition compute_spectral_spread (magnitudes frequencies : list double)
  (centroid : double) : option double :=
  if Vec.empty magnitudes || Vec.empty frequencies then Some 0%float
  else
    st <- for_each_bin magnitudes frequencies
            (fun m f '(weighted_var, total_power) =>
               let power := (m * m)%float in
               let diff := (f - centroid)%float in
               Some ((weighted_var + diff * diff * power)%float,
                     (total_power + power)%float))
            (0%float, 0%float) ;;
    let '(weighted_var, total_power) := st in
    if PrimFloat.ltb total_power epsilon then Some 0%float
    else Some (PrimFloat.sqrt (weighted_var / total_power)).

(** [freq >= band.first && freq < band.second] *)
Definition in_band (freq : double) (band : double * double) : bool :=
  PrimFloat.leb (fst band) freq && PrimFloat.ltb freq (snd band).

Fixpoint band_loop (count : nat) (b : SizeT.size_t) (freq power : double)
  (bandpowers : list double) : option (list double) :=
  match count with
  | O => Some bandpowers
  | S c =>
      band <- Vec.get FREQ_BANDS b ;;
      if in_band freq band
      then cur <- Vec.get bandpowers b ;;
           Vec.set bandpowers b (cur + power)%float
      else band_loop c (b + 1)%N freq power bandpowers
  end.

Definition compute_bandpower (magnitudes frequencies : list double)
  : option (list double) :=
  let bandpowers := Vec.make (Vec.size FREQ_BANDS) 0%float in
  if Vec.empty magnitudes || Vec.empty frequencies then Some bandpowers
  else
    for_each_bin magnitudes frequencies
      (fun m f bandpowers =>
         let freq := f in
         let power := (m * m)%float in
         band_loop (N.to_nat (Vec.size FREQ_BANDS)) 0%N freq power bandpowers)
      bandpowers.

End Binary64.

(** ** The command-line tool

    [main.cpp]: [read_signal] and [main].  The conversion [std::stod], the
    files that can be read and the files that can be opened for writing
    are parameters; what [output_text] and [output_json] print is not
    part of the embedding, a call of one of them is an event of the
    trace.  The number [std::stod] returns is read over exact arithmetic:
    the texts it turns into NaN or an infinity have no counterpart here
    (the constructor accepts a NaN rate, see [Binary64.construct]), so
    the properties of [main] speak of the rate the constructor accepted,
    not of a positive rate. *)

Module Cli.

Definition newline : Ascii.ascii := Ascii.ascii_of_nat 10.
Definition comma : Ascii.ascii := Ascii.ascii_of_nat 44.
Definition dash : Ascii.ascii := Ascii.ascii_of_nat 45.

Definition endl : string := String newline EmptyString.

(** The characters [std::getline] extracts before the delimiter, which it
    discards, and what it leaves in the stream. *)
Fixpoint take_until (delim : Ascii.ascii) (stream : string)
  : string * string :=
  match stream with
  | EmptyString => (EmptyString, EmptyString)
  | String c rest =>
      if Ascii.eqb c delim then (EmptyString, rest)
      else let '(value, remaining) := take_until delim rest in
           (String c value, remaining)
  end.

(** [std::getline(stream, value, delim)]: it fails when it can extract no
    character at all. *)
Definition getline (delim : Ascii.ascii) (stream : string)
  : option (string * string) :=
  match stream with
  | EmptyString => None
  | String _ _ => Some (take_until delim stream)
  end.

(** [while (std::getline(stream, value, delim)) body]. *)
Fixpoint while_getline {S : Type} (fuel : nat) (delim : Ascii.ascii)
  (stream : string) (body : string -> S -> option S) (s : S) : option S :=
  match fuel with
  | O => None
  | Datatypes.S fuel' =>
      match getline delim stream with
      | None => Some s
      | Some (value, rest) =>
          s' <- body value s ;;
          while_getline fuel' delim rest body s'
      end
  end.

(** The characters of [" \t\r\n"]. *)
Definition is_space (c : Ascii.ascii) : bool :=
  Ascii.eqb c (Ascii.ascii_of_nat 32)
  || Ascii.eqb c (Ascii.ascii_of_nat 9)
  || Ascii.eqb c (Ascii.ascii_of_nat 13)
  || Ascii.eqb c (Ascii.ascii_of_nat 10).

(** [value.find_first_not_of(" \t\r\n")], counted from [i]; [None] is
    [std::string::npos]. *)
Fixpoint find_first_not_of (value : string) (i : nat) : option nat :=
  match value with
  | EmptyString => None
  | String c rest =>
      if is_space c then find_first_not_of rest (S i) else Some i
  end.

(** [value.find_last_not_of(" \t\r\n")], counted from [i]. *)
Fixpoint find_last_not_of (value : string) (i : nat) : option nat :=
  match value with
  | EmptyString => None
  | String c rest =>
      match find_last_not_of rest (S i) with
      | Some j => Some j
      | None => if is_space c then None else Some i
      end
  end.

Definition is_empty (s : string) : bool :=
  match s with
  | EmptyString => true
  | String _ _ => false
  end.

(** The body of the inner loop of [read_signal]: trim the value, convert
    it and append the sample; a value that [std::stod] refuses is
    skipped. *)
Definition token_step (stod : string -> option R) (value : string)
  (signal : list R) : option (list R) :=
  match find_first_not_of value 0, find_last_not_of value 0 with
  | Some start, Some end_ =>
      let trimmed := substring start (end_ - start + 1) value in
      if negb (is_empty trimmed)
      then match stod trimmed with
           | Some sample => Some (signal ++ [sample])
           | None => Some signal
           end
      else Some signal
  | _, _ => Some signal
  end.

(** What a call returns, or the [what()] of the exception it throws. *)
Inductive result (A : Type) : Type :=
| Normal (a : A)
| Raised (what : string).

Arguments Normal {A} a.
Arguments Raised {A} what.

(** [read_signal(filename)]; every pass of a [getline] loop takes at
    least one character, so the length of the stream bounds the
    passes. *)
Definition read_signal (stod : string -> option R)
  (fs : string -> option string) (filename : string)
  : option (result (list R)) :=
  match fs filename with
  | None => Some (Raised (String.append "Cannot open file: " filename))
  | Some content =>
      signal <-
        while_getline (S (String.length content)) newline content
          (fun line signal =>
             while_getline (S (String.length line)) comma line
               (token_step stod) signal)
          [] ;;
      Some (Normal signal)
  end.

(** The variables [main] sets from its arguments. *)
Record options : Type := mkOptions {
  sample_rate : R;
  input_file : string;
  output_file : string;
  json_output : bool
}.

Definition default_options : options :=
  mkOptions 5000 EmptyString EmptyString false.

(** What the program writes. *)
Inductive event : Type :=
| Stderr (text : string)
| ReadSamples (count : N)
| PrintUsage
| OutputText (file : option string) (features : SignalFeatures)
| OutputJson (file : option string) (features : SignalFeatures).

(** How the argument loop ends: all arguments read, a [return], or an
    exception of [std::stod] that nothing catches. *)
Inductive parsed : Type :=
| Parsed (o : options)
| Stop (code : Z) (trace : list event)
| Uncaught.

Definition starts_with_dash (arg : string) : bool :=
  match arg with
  | EmptyString => false
  | String c _ => Ascii.eqb c dash
  end.

(** [for (int i = 1; i < argc; ++i)] over [argv[1 ..]]. *)
Fixpoint parse_args (stod : string -> option R) (args : list string)
  (o : options) : parsed :=
  match args with
  | [] => Parsed o
  | arg :: rest =>
      if String.eqb arg "-h" || String.eqb arg "--help"
      then Stop 0 [PrintUsage]
      else if String.eqb arg "-r" || String.eqb arg "--rate"
      then match rest with
           | [] =>
               Stop 1
                 [Stderr (String.append "Error: --rate requires a value"
                            endl)]
           | value :: rest' =>
               match stod value with
               | Some rate =>
                   parse_args stod rest'
                     (mkOptions rate (input_file o) (output_file o)
                        (json_output o))
               | None => Uncaught
               end
           end
      else if String.eqb arg "-o" || String.eqb arg "--output"
      then match rest with
           | [] =>
               Stop 1
                 [Stderr
                    (String.append "Error: --output requires a filename"
                       endl)]
           | value :: rest' =>
               parse_args stod rest'
                 (mkOptions (sample_rate o) (input_file o) value
                    (json_output o))
           end
      else if String.eqb arg "-j" || String.eqb arg "--json"
      then parse_args stod rest
             (mkOptions (sample_rate o) (input_file o) (output_file o) true)
      else if starts_with_dash arg
      then Stop 1
             [Stderr (String.append "Unknown option: "
                        (String.append arg endl));
              PrintUsage]
      else parse_args stod rest
             (mkOptions (sample_rate o) arg (output_file o) (json_output o))
  end.

(** How a run ends: [return code], or [std::terminate] on an exception
    nothing catches. *)
Inductive run : Type :=
| Exited (code : Z) (trace : list event)
| Terminated.

Definition output_event (json : bool) (file : option string)
  (features : SignalFeatures) : event :=
  if json then OutputJson file features else OutputText file features.

(** [int main(int argc, char* argv[])] on the arguments [argv[1 ..]]. *)
Definition main (stod : string -> option R)
  (fs : string -> option string) (writable : string -> bool)
  (args : list string) : option run :=
  match parse_args stod args default_options with
  | Stop code trace => Some (Exited code trace)
  | Uncaught => Some Terminated
  | Parsed o =>
      if is_empty (input_file o)
      then Some (Exited 1
                   [Stderr (String.append "Error: No input file specified"
                              endl);
                    PrintUsage])
      else
        r <- read_signal stod fs (input_file o) ;;
        match r with
        | Raised what =>
            Some (Exited 1
                    [Stderr (String.append "Error: "
                               (String.append what endl))])
        | Normal signal =>
            if Vec.empty signal
            then Some (Exited 1
                         [Stderr
                            (String.append
                               "Error: No valid samples found in input file"
                               endl)])
            else
              match construct (sample_rate o) with
              | Throws (invalid_argument what) =>
                  Some (Exited 1
                          [ReadSamples (Vec.size signal);
                           Stderr (String.append "Error: "
                                     (String.append what endl))])
              | Returns extractor =>
                  features <- extract_all extractor signal ;;
                  if is_empty (output_file o)
                  then Some (Exited 0
                               [ReadSamples (Vec.size signal);
                                output_event (json_output o) None features])
                  else if writable (output_file o)
                  then Some (Exited 0
                               [ReadSamples (Vec.size signal);
                                output_event (json_output o)
                                  (Some (output_file o)) features])
                  else Some (Exited 1
                               [ReadSamples (Vec.size signal);
                                Stderr
                                  (String.append
                                     "Error: Cannot open output file: "
                                     (String.append (output_file o) endl))])
              end
        end
  end.

End Cli.

(** * Reference definitions

    What the properties below compare the code with. *)

Definition sum_list (l : list R) : R := fold_right Rplus 0 l.

Definition mean_of (l : list R) : R := sum_list l / INR (length l).



(** The value whose [b] low bits are the [b] low bits of [m] in the
    opposite order. *)
Fixpoint rev_bits (b : nat) (m : nat) : nat :=
  match b with
  | O => 0
  | S b' => (m mod 2) * 2 ^ b' + rev_bits b' (m / 2)
  end.

Definition cx_opp (a : Cx.complex) : Cx.complex :=
  (- Cx.re a, - Cx.im a).

Fixpoint cx_pow (z : Cx.complex) (n : nat) : Cx.complex :=
  match n with
  | O => Cx.one
  | S n' => Cx.mul z (cx_pow z n')
  end.

(** [cx_sum f n] is [f 0 + f 1 + ... + f (n - 1)]. *)
Fixpoint cx_sum (f : nat -> Cx.complex) (n : nat) : Cx.complex :=
  match n with
  | O => Cx.zero
  | S n' => Cx.add (cx_sum f n') (f n')
  end.

(** [cis t] is [e^(i t)]. *)
Definition cis (t : R) : Cx.complex := (cos t, sin t).

(** The forward discrete Fourier transform, as the claim writes it:
    [X[k]] is the sum over [n] of [x[n] * e^(-2 pi i k n / N)]. *)
Definition dft (x : list Cx.complex) (k : nat) : Cx.complex :=
  cx_sum
    (fun n =>
       Cx.mul (nth n x Cx.zero)
         (cis (- (2 * Rtrigo1.PI * INR k * INR n / INR (length x)))))
    (length x).

(** The principal root of unity of order [n] in the direction of the
    forward transform: [e^(-2 pi i / n)]. *)
Definition omega (n : nat) : Cx.complex :=
  cis (- (2 * Rtrigo1.PI / INR n)).

(** The sum over [h] terms [a m] weighted by the powers of [w * w] at the
    frequency [k]: one half of a radix-2 step with the root [w]. *)
Definition half_sum (w : Cx.complex) (h : nat) (a : nat -> Cx.complex)
  (k : nat) : Cx.complex :=
  cx_sum (fun m => Cx.mul (a m) (cx_pow (Cx.mul w w) (k * m))) h.

Definition dft_list (x : list Cx.complex) : list Cx.complex :=
  map (dft x) (seq 0 (length x)).

(** The window as a complex buffer of [n] elements: the samples with a
    zero imaginary part, then zeros. *)
Definition pad (signal : list R) (n : nat) : list Cx.complex :=
  map Cx.of_real signal ++ repeat Cx.zero (n - length signal).

(** The magnitude of the bin [k] of a transform [X] of [n] elements, as
    the claim writes it: [|X[k]| * 2 / n], and [|X[0]| / n] for the bin
    0. *)
Definition spectrum_magnitude (X : list Cx.complex) (n k : nat) : R :=
  if (k =? 0)%nat then Cx.abs (nth 0 X Cx.zero) / INR n
  else Cx.abs (nth k X Cx.zero) * 2 / INR n.

(** The frequency of the bin [k]: [k * (rate / n)]. *)
Definition spectrum_frequency (rate : R) (n k : nat) : R :=
  INR k * (rate / INR n).

(** The one-sided spectrum of a window padded to [n] elements: the first
    [n / 2] bins of the transform of the padded window. *)
Definition one_sided_spectrum (rate : R) (signal : list R) (n : nat)
  : list R * list R :=
  let X := dft_list (pad signal n) in
  (map (spectrum_magnitude X n) (seq 0 (n / 2)),
   map (spectrum_frequency rate n) (seq 0 (n / 2))).

(** The first band, counted from [b], whose half-open interval contains
    [freq]. *)
Fixpoint first_band (bands : list (R * R)) (b : nat) (freq : R)
  : option nat :=
  match bands with
  | [] => None
  | band :: rest =>
      if in_band freq band then Some b else first_band rest (S b) freq
  end.

Definition band_of (freq : R) : option nat := first_band FREQ_BANDS 0 freq.

(** Add [power] to the band [b], when there is one. *)
Definition add_power (b : option nat) (power : R) (bandpowers : list R)
  : list R :=
  match b with
  | Some b => Vec.upd bandpowers b (nth b bandpowers 0 + power)
  | None => bandpowers
  end.

(** Band powers, bin by bin: the squared magnitude of a bin goes to the
    first band that contains its frequency. *)
Definition bandpower_reference (magnitudes frequencies : list R) : list R :=
  fold_left
    (fun bandpowers bin =>
       add_power (band_of (snd bin)) (fst bin * fst bin) bandpowers)
    (combine magnitudes frequencies) [0; 0; 0; 0; 0].

(** ** Loop invariants of the transform *)

(** The buffer [s] after the passes [0 .. i-1] of the bit-reversal loop on
    [x]: every index that is below [i], or whose reversal is, holds its
    final value, and the others still hold their first one. *)
Definition permuted_up_to (B : nat) (x : list Cx.complex)
  (i : N) (s : list Cx.complex) : Prop :=
  length s = length x
  /\ forall t : nat,
       (t < length x)%nat ->
       ((t < N.to_nat i \/ rev_bits B t < N.to_nat i)%nat ->
        nth t s Cx.zero = nth (rev_bits B t) x Cx.zero)
       /\ (~ (t < N.to_nat i \/ rev_bits B t < N.to_nat i)%nat ->
           nth t s Cx.zero = nth t x Cx.zero).

(** What one block of a stage leaves at the index [p] of the block that
    starts at [i0], from the buffer [A] the block started on: the sum of
    the butterfly in the lower half of the block, the difference in the
    upper half. *)
Definition block_value (i0 half : nat) (w : Cx.complex)
  (A : list Cx.complex) (p : nat) : Cx.complex :=
  if (p <? i0 + half)%nat
  then Cx.add (nth p A Cx.zero)
         (Cx.mul (cx_pow w (p - i0)) (nth (p + half) A Cx.zero))
  else Cx.sub (nth (p - half) A Cx.zero)
         (Cx.mul (cx_pow w (p - half - i0)) (nth p A Cx.zero)).

(** What a whole stage leaves at the index [p]. *)
Definition stage_value (half : nat) (w : Cx.complex)
  (A : list Cx.complex) (p : nat) : Cx.complex :=
  block_value (p / (2 * half) * (2 * half)) half w A p.

(** The state after the passes [0 .. j-1] of the innermost loop. *)
Definition block_up_to (i0 half : nat) (wlen : Cx.complex)
  (A : list Cx.complex) (j : N) (st : list Cx.complex * Cx.complex)
  : Prop :=
  snd st = cx_pow wlen (N.to_nat j)
  /\ length (fst st) = length A
  /\ forall p : nat,
       (p < length A)%nat ->
       ((i0 <= p < i0 + N.to_nat j
         \/ i0 + half <= p < i0 + half + N.to_nat j)%nat ->
        nth p (fst st) Cx.zero = block_value i0 half wlen A p)
       /\ (~ (i0 <= p < i0 + N.to_nat j
              \/ i0 + half <= p < i0 + half + N.to_nat j)%nat ->
           nth p (fst st) Cx.zero = nth p A Cx.zero).

(** The buffer [A] after the stages of block sizes [2, 4, ..., 2^s] on the
    permuted buffer [y]: every block of [2^s] elements holds the transform
    of the [2^s] elements of [y] it started with, taken in bit-reversed
    order. *)
Definition stage_done (y : list Cx.complex) (s : nat)
  (A : list Cx.complex) : Prop :=
  length A = length y
  /\ forall blk k : nat,
       (k < 2 ^ s)%nat ->
       (blk * 2 ^ s + k < length y)%nat ->
       nth (blk * 2 ^ s + k) A Cx.zero
       = cx_sum
           (fun m =>
              Cx.mul (nth (blk * 2 ^ s + rev_bits s m) y Cx.zero)
                (cx_pow (omega (2 ^ s)) (k * m)))
           (2 ^ s).

(** The buffer after the passes [0 .. i-1] of the loop that copies the
    window [signal] into it. *)
Definition copied_up_to (signal : list R) (n : nat)
  (i : N) (x : list Cx.complex) : Prop :=
  length x = n
  /\ forall t : nat,
       (t < n)%nat ->
       nth t x Cx.zero
       = if (t <? N.to_nat i)%nat then Cx.of_real (nth t signal 0)
         else Cx.zero.

(** The two halves of the spectrum after the passes [0 .. i-1] of the loop
    that fills them from the transform [X] of [n] elements. *)
Definition spectrum_up_to (X : list Cx.complex) (n : nat) (rate : R)
  (i : N) (st : list R * list R) : Prop :=
  length (fst st) = (n / 2)%nat
  /\ length (snd st) = (n / 2)%nat
  /\ forall t : nat,
       (t < N.to_nat i)%nat ->
       nth t (fst st) 0 = Cx.abs (nth t X Cx.zero) * 2 / INR n
       /\ nth t (snd st) 0 = INR t * (rate / INR n).

(** ** Reference definitions for the further properties *)


(** The deviations of the samples from their mean. *)
Definition deviations (l : list R) : list R :=
  map (fun s => s - mean_of l) l.

(** Kurtosis and skewness as functions of the deviations alone. *)
Definition kurtosis_of_deviations (d : list R) : R :=
  if (length d <? 4)%nat then 0
  else
    let n := INR (length d) in
    let m2 := sum_list (map (fun a => a * a) d) / n in
    let m4 := sum_list (map (fun a => a * a * (a * a)) d) / n in
    if Rlt_dec m2 epsilon then 0 else m4 / (m2 * m2) - 3.

Definition skewness_of_deviations (d : list R) : R :=
  if (length d <? 3)%nat then 0
  else
    let n := INR (length d) in
    let m2 := sum_list (map (fun a => a * a) d) / n in
    let m3 := sum_list (map (fun a => a * a * a) d) / n in
    if Rlt_dec (sqrt m2) epsilon then 0
    else m3 / (sqrt m2 * sqrt m2 * sqrt m2).


(** The total power of a list of bins, each a magnitude with its
    frequency, and the sums of the frequencies and of the squared
    distances to [c] weighted by the power. *)
Definition total_power (bins : list (R * R)) : R :=
  sum_list (map (fun bin => fst bin * fst bin) bins).

Definition weighted_frequency (bins : list (R * R)) : R :=
  sum_list (map (fun bin => snd bin * (fst bin * fst bin)) bins).

Definition weighted_variance (c : R) (bins : list (R * R)) : R :=
  sum_list
    (map (fun bin => (snd bin - c) * (snd bin - c) * (fst bin * fst bin))
       bins).

(** The power-weighted mean frequency of a spectrum, 0 when a sequence is
    empty or the total power is below [1e-10]. *)
Definition centroid_reference (magnitudes frequencies : list R) : R :=
  let bins := combine magnitudes frequencies in
  if Vec.empty magnitudes || Vec.empty frequencies then 0
  else if Rlt_dec (total_power bins) epsilon then 0
       else weighted_frequency bins / total_power bins.

(** The power-weighted standard deviation of the frequency around [c],
    with the same guards. *)
Definition spread_reference (magnitudes frequencies : list R) (c : R) : R :=
  let bins := combine magnitudes frequencies in
  if Vec.empty magnitudes || Vec.empty frequencies then 0
  else if Rlt_dec (total_power bins) epsilon then 0
       else sqrt (weighted_variance c bins / total_power bins).

(** The power of the bins whose frequency lies in the interval of the
    band [b]. *)
Definition band_power_of (b : nat) (bins : list (R * R)) : R :=
  sum_list
    (map (fun bin =>
            if in_band (snd bin) (nth b FREQ_BANDS (0, 0))
            then fst bin * fst bin else 0)
       bins).

(** The power of the bins whose frequency lies in some band, that is in
    [[0, 10000)]. *)
Definition banded_power (bins : list (R * R)) : R :=
  sum_list
    (map (fun bin =>
            match band_of (snd bin) with
            | Some _ => fst bin * fst bin
            | None => 0
            end)
       bins).

(** A value without its leading and its trailing white space. *)
Fixpoint drop_spaces (s : string) : string :=
  match s with
  | EmptyString => EmptyString
  | String c rest => if Cli.is_space c then drop_spaces rest else s
  end.

Fixpoint drop_trailing_spaces (s : string) : string :=
  match s with
  | EmptyString => EmptyString
  | String c rest =>
      match drop_trailing_spaces rest with
      | EmptyString =>
          if Cli.is_space c then EmptyString else String c EmptyString
      | String d t => String c (String d t)
      end
  end.

Definition trim (s : string) : string :=
  drop_trailing_spaces (drop_spaces s).

(** The samples one field of the input contributes: the number of its
    trimmed text, if that is not empty and converts. *)
Definition field_samples (stod : string -> option R) (field : string)
  : list R :=
  if Cli.is_empty (trim field) then []
  else match stod (trim field) with
       | Some sample => [sample]
       | None => []
       end.

Fixpoint has_char (c : Ascii.ascii) (s : string) : bool :=
  match s with
  | EmptyString => false
  | String d rest => Ascii.eqb d c || has_char c rest
  end.

(** A row of fields as a line of comma-separated values, and rows as a
    text with one line per row. *)
Fixpoint csv_line (row : list string) : string :=
  match row with
  | [] => EmptyString
  | [field] => field
  | field :: rest => String.append field (String Cli.comma (csv_line rest))
  end.

Fixpoint csv_text (rows : list (list string)) : string :=
  match rows with
  | [] => EmptyString
  | row :: rest =>
      String.append (csv_line row) (String Cli.newline (csv_text rest))
  end.

(** The events that write features. *)
Definition is_output (e : Cli.event) : bool :=
  match e with
  | Cli.OutputText _ _ | Cli.OutputJson _ _ => true
  | _ => false
  end.

(** A conversion that knows two texts, for examples. *)
Definition stod_one_two (text : string) : option R :=
  if String.eqb text "1" then Some 1
  else if String.eqb text "2" then Some 2
  else None.

(** The extractors a program can hold: one that a constructor call
    returned, or one that went through a call of [set_sample_rate],
    whether the call returned or threw. *)
Inductive reachable : Binary64.FeatureExtractor -> Prop :=
| reachable_construct (r : float) (this : Binary64.FeatureExtractor) :
    Binary64.construct r = Returns this -> reachable this
| reachable_set (r : float) (this : Binary64.FeatureExtractor) :
    reachable this -> reachable (fst (Binary64.set_sample_rate r this)).


(** * Properties *)

(** ** Arithmetic on sizes *)

Lemma to_double_size (A : Type) (v : list A) :
  SizeT.to_double (Vec.size v) = INR (length v).
Proof.
  unfold SizeT.to_double, Vec.size.
  rewrite nat_N_Z. symmetry. apply INR_IZR_INZ.
Qed.

Lemma epsilon_pos : 0 < epsilon.
Proof. unfold epsilon. lra. Qed.

(** ** Configuration *)

(** C4: construction and [set_sample_rate] throw [invalid_argument] exactly
    when the rate is at most zero, accept every strictly positive rate, and
    a call of [set_sample_rate] that throws leaves the stored rate as it
    was. *)
Theorem sample_rate_validation (r : R) :
  ((exists what, construct r = Throws (invalid_argument what)) <-> r <= 0)
  /\ (forall this,
        (exists what,
           snd (set_sample_rate r this) = Throws (invalid_argument what))
        <-> r <= 0)
  /\ (0 < r ->
      construct r = Returns (mkFeatureExtractor r)
      /\ forall this,
           set_sample_rate r this = (mkFeatureExtractor r, Returns tt))
  /\ (forall this e,
        snd (set_sample_rate r this) = Throws e ->
        get_sample_rate (fst (set_sample_rate r this))
        = get_sample_rate this).
Proof.
  unfold construct, set_sample_rate.
  destruct (Rle_dec r 0) as [Hle | Hgt]; cbn.
  - repeat split; intros; try lra; eauto.
  - repeat split; intros; try lra; try discriminate;
      match goal with
      | H : exists _, _ |- _ => destruct H; discriminate
      end.
Qed.

Example sample_rate_validation_5000 :
  construct 5000 = Returns (mkFeatureExtractor 5000)
  /\ exists what, construct (-1) = Throws (invalid_argument what).
Proof.
  split.
  - destruct (sample_rate_validation 5000) as (_ & _ & H & _).
    apply H. lra.
  - destruct (sample_rate_validation (-1)) as (H & _).
    apply H. lra.
Defined.

(** ** Time-domain statistics *)

Lemma fold_left_sum (l : list R) (a : R) :
  fold_left (fun acc s => acc + s) l a = a + sum_list l.
Proof.
  unfold sum_list.
  revert a. induction l as [| x l IH]; intros a; cbn.
  - lra.
  - rewrite IH. lra.
Qed.

Lemma fold_left_sum_map (f : R -> R) (l : list R) (a : R) :
  fold_left (fun acc s => acc + f s) l a = a + sum_list (map f l).
Proof.
  unfold sum_list.
  revert a. induction l as [| x l IH]; intros a; cbn.
  - lra.
  - rewrite IH. lra.
Qed.

Lemma fold_left_moments (f g : R -> R) (l : list R) (a b : R) :
  fold_left (fun '(p, q) s => (p + f s, q + g s)) l (a, b)
  = (a + sum_list (map f l), b + sum_list (map g l)).
Proof.
  unfold sum_list.
  revert a b. induction l as [| x l IH]; intros a b; cbn.
  - f_equal; lra.
  - rewrite IH. f_equal; lra.
Qed.


(** C7: [compute_crest_factor] is 0 whenever the RMS is below [1e-10], and
    [peak / rms] otherwise; the quotient is only formed with an RMS of at
    least [1e-10]. *)
Theorem compute_crest_factor_guarded (signal : list R) :
  (compute_rms signal < epsilon -> compute_crest_factor signal = 0)
  /\ (epsilon <= compute_rms signal ->
      compute_crest_factor signal
      = compute_peak signal / compute_rms signal)
  /\ (compute_crest_factor signal <> 0 ->
      epsilon <= compute_rms signal /\ compute_rms signal <> 0).
Proof.
  unfold compute_crest_factor.
  pose proof epsilon_pos as Heps.
  destruct (Rlt_dec (compute_rms signal) epsilon) as [Hlt | Hge].
  - repeat split; intros; try lra.
  - repeat split; intros; try lra.
Qed.


Lemma sum_list_map_repeat (f : R -> R) (v : R) (n : nat) :
  sum_list (map f (repeat v n)) = INR n * f v.
Proof.
  unfold sum_list. induction n as [| n IH].
  - cbn. lra.
  - rewrite S_INR. cbn [repeat map fold_right]. rewrite IH. lra.
Qed.



Lemma compute_rms_constant (v : R) (n : nat) :
  compute_rms (repeat v (S n)) = Rabs v.
Proof.
  unfold compute_rms. cbn [repeat Vec.empty].
  change (v :: repeat v n) with (repeat v (S n)).
  rewrite (fold_left_sum_map (fun s => s * s)), sum_list_map_repeat.
  rewrite to_double_size, repeat_length.
  rewrite <- sqrt_Rsqr_abs. f_equal. unfold Rsqr.
  assert (INR (S n) <> 0) by (apply not_0_INR; discriminate).
  field. assumption.
Qed.


Example compute_crest_factor_guarded_silent_and_unit :
  compute_crest_factor [] = 0
  /\ compute_crest_factor [1] = compute_peak [1] / compute_rms [1].
Proof.
  split.
  - destruct (compute_crest_factor_guarded []) as (H & _).
    apply H. unfold compute_rms. cbn [Vec.empty]. apply epsilon_pos.
  - destruct (compute_crest_factor_guarded [1]) as (_ & H & _).
    apply H. change [1] with (repeat 1 1).
    rewrite (compute_rms_constant 1 0), Rabs_R1.
    unfold epsilon. lra.
Defined.



(** ** The whole record *)

Lemma rlt_dec_epsilon (A : Type) (a b : A) :
  (if Rlt_dec 0 epsilon then a else b) = a.
Proof.
  pose proof epsilon_pos.
  destruct (Rlt_dec 0 epsilon); [reflexivity | lra].
Qed.

(** C3: on the empty window [extract_all] returns a record, whatever the
    stored rate: RMS, peak, crest factor, centroid and spread are 0, the
    five band powers are 0 and the two halves of the spectrum are empty. *)
Theorem extract_all_empty (this : FeatureExtractor) :
  exists features,
    extract_all this [] = Some features
    /\ rms features = 0
    /\ peak features = 0
    /\ crest_factor features = 0
    /\ spectral_centroid features = 0
    /\ spectral_spread features = 0
    /\ bandpowers features = [0; 0; 0; 0; 0]
    /\ fft_magnitude features = []
    /\ fft_frequencies features = [].
Proof.
  eexists. split.
  - unfold extract_all. cbn. reflexivity.
  - cbn. unfold compute_crest_factor, compute_rms, compute_peak. cbn.
    rewrite rlt_dec_epsilon.
    repeat split; reflexivity.
Qed.

Lemma compute_fft_single_sample (this : FeatureExtractor) (v : R) :
  compute_fft this [v] = Some ([], []).
Proof. reflexivity. Qed.

(** C10: a window of one sample is padded to length 1, so [compute_fft]
    returns two empty sequences, and [extract_all] yields an empty
    spectrum, centroid and spread 0 and five band powers 0, the values it
    yields for the empty window. *)
Theorem extract_all_single_sample (this : FeatureExtractor) (v : R) :
  next_power_of_2 (Vec.size [v]) = Some 1%N
  /\ compute_fft this [v] = Some ([], [])
  /\ exists features empty_features,
       extract_all this [v] = Some features
       /\ extract_all this [] = Some empty_features
       /\ fft_magnitude features = []
       /\ fft_frequencies features = []
       /\ spectral_centroid features = 0
       /\ spectral_spread features = 0
       /\ bandpowers features = [0; 0; 0; 0; 0]
       /\ fft_magnitude features = fft_magnitude empty_features
       /\ fft_frequencies features = fft_frequencies empty_features
       /\ spectral_centroid features = spectral_centroid empty_features
       /\ spectral_spread features = spectral_spread empty_features
       /\ bandpowers features = bandpowers empty_features.
Proof.
  split; [reflexivity |].
  split; [apply compute_fft_single_sample |].
  unfold extract_all. rewrite compute_fft_single_sample.
  do 2 eexists.
  split; [cbn; reflexivity |].
  split; [cbn; reflexivity |].
  cbn. repeat split; reflexivity.
Qed.

(** ** Vectors and counted loops *)

Section VecFacts.

Context {A : Type}.

Lemma upd_length (v : list A) (i : nat) (a : A) :
  length (Vec.upd v i a) = length v.
Proof.
  revert i. induction v as [| h t IH]; intros [| i]; cbn; auto.
Qed.

Lemma upd_nth (v : list A) (i j : nat) (a d : A) :
  (i < length v)%nat ->
  nth j (Vec.upd v i a) d = if Nat.eqb j i then a else nth j v d.
Proof.
  revert i j. induction v as [| h t IH]; intros i j Hi; cbn in Hi.
  - lia.
  - destruct i as [| i], j as [| j]; cbn; auto.
    apply IH. lia.
Qed.

Lemma get_some (v : list A) (i : N) (d : A) :
  (i < Vec.size v)%N ->
  Vec.get v i = Some (nth (N.to_nat i) v d).
Proof.
  unfold Vec.get, Vec.size. intros Hi.
  apply nth_error_nth'. lia.
Qed.

Lemma set_some (v : list A) (i : N) (a : A) :
  (i < Vec.size v)%N ->
  Vec.set v i a = Some (Vec.upd v (N.to_nat i) a).
Proof.
  unfold Vec.set. intros Hi.
  destruct (N.ltb_spec i (Vec.size v)); [reflexivity | lia].
Qed.

Lemma size_upd (v : list A) (i : nat) (a : A) :
  Vec.size (Vec.upd v i a) = Vec.size v.
Proof. unfold Vec.size. now rewrite upd_length. Qed.

Lemma make_length (n : N) (a : A) : length (Vec.make n a) = N.to_nat n.
Proof. apply repeat_length. Qed.

Lemma make_nth (n : N) (a : A) (i : nat) : nth i (Vec.make n a) a = a.
Proof.
  unfold Vec.make. generalize (N.to_nat n) as m. intros m. revert i.
  induction m as [| m IH]; intros [| i]; cbn; auto.
Qed.

(** Two vectors of one length that agree at every index are equal. *)
Lemma nth_ext_eq (v w : list A) (d : A) :
  length v = length w ->
  (forall i, (i < length v)%nat -> nth i v d = nth i w d) ->
  v = w.
Proof.
  intros Hlen Hnth. apply (nth_ext v w d d); assumption.
Qed.

End VecFacts.

Section LoopFacts.

Context {S : Type}.

(** An invariant [P i s] that every pass carries from [i] to [i + 1]
    holds at the exit, and the loop has a result. *)
Lemma for_count_invariant (P : N -> S -> Prop)
  (body : N -> S -> option S) (count : nat) (lo : N) (s : S) :
  P lo s ->
  (forall i s,
      (lo <= i < lo + N.of_nat count)%N -> P i s ->
      exists s', body i s = Some s' /\ P (i + 1)%N s') ->
  exists s',
    for_count count lo body s = Some s' /\ P (lo + N.of_nat count)%N s'.
Proof.
  revert lo s. induction count as [| count IH]; intros lo s H0 Hstep.
  - exists s. split; [reflexivity |].
    replace (lo + N.of_nat 0)%N with lo by lia. assumption.
  - cbn [for_count].
    destruct (Hstep lo s) as (s1 & Hbody & H1); [lia | assumption |].
    rewrite Hbody. cbn [bind].
    destruct (IH (lo + 1)%N s1) as (s2 & Hrun & H2).
    + assumption.
    + intros i s' Hi. apply Hstep. lia.
    + exists s2. split; [assumption |].
      replace (lo + N.of_nat (Datatypes.S count))%N
        with (lo + 1 + N.of_nat count)%N by lia.
      assumption.
Qed.

Lemma for_range_invariant (P : N -> S -> Prop)
  (body : N -> S -> option S) (hi : N) (s : S) :
  P 0%N s ->
  (forall i s,
      (i < hi)%N -> P i s ->
      exists s', body i s = Some s' /\ P (i + 1)%N s') ->
  exists s', for_range 0%N hi body s = Some s' /\ P hi s'.
Proof.
  intros H0 Hstep. unfold for_range.
  destruct (for_count_invariant P body (N.to_nat (hi - 0)) 0%N s H0)
    as (s' & Hrun & Hs').
  - intros i s1 Hi. apply Hstep. lia.
  - exists s'. split; [assumption |].
    replace (0 + N.of_nat (N.to_nat (hi - 0)))%N with hi in Hs' by lia.
    assumption.
Qed.

End LoopFacts.

(** ** [size_t] arithmetic without wrap-around *)

Lemma wrap_small (x : N) : (x < 2 ^ 64)%N -> SizeT.wrap x = x.
Proof. intros Hx. unfold SizeT.wrap, SizeT.modulus. now apply N.mod_small. Qed.

Lemma shl1_small (x : N) : (2 * x < 2 ^ 64)%N -> SizeT.shl1 x = (2 * x)%N.
Proof.
  intros Hx. unfold SizeT.shl1.
  rewrite N.shiftl_mul_pow2, N.pow_1_r.
  rewrite wrap_small; lia.
Qed.

Lemma add_small (x y : N) : (x + y < 2 ^ 64)%N -> SizeT.add x y = (x + y)%N.
Proof. intros Hxy. unfold SizeT.add. now apply wrap_small. Qed.

Lemma shr1_half (x : N) : SizeT.shr1 x = (x / 2)%N.
Proof. unfold SizeT.shr1. now rewrite N.shiftr_div_pow2, N.pow_1_r. Qed.

(** ** The padded length *)

Lemma next_power_of_2_loop_spec (d : nat) :
  forall (k fuel : nat) (n : N),
    (k + d = 63)%nat -> (d < fuel)%nat -> (n <= 2 ^ 63)%N ->
    (2 ^ N.of_nat k < 2 * n \/ k = 0%nat)%N ->
    exists j : nat,
      (j <= 63)%nat
      /\ next_power_of_2_loop fuel (2 ^ N.of_nat k)%N n
         = Some (2 ^ N.of_nat j)%N
      /\ (n <= 2 ^ N.of_nat j)%N
      /\ (2 ^ N.of_nat j < 2 * n \/ j = 0%nat)%N.
Proof.
  induction d as [| d IH]; intros k fuel n Hk Hfuel Hn Hmin;
    (destruct fuel as [| fuel]; [lia |]); cbn [next_power_of_2_loop].
  - assert (k = 63%nat) by lia. subst k.
    change (N.of_nat 63) with 63%N in *.
    destruct (N.ltb_spec (2 ^ 63) n) as [Hlt | Hge]; [lia |].
    exists 63%nat. repeat split; auto.
  - destruct (N.ltb_spec (2 ^ N.of_nat k) n) as [Hlt | Hge].
    + assert (Hpow : (2 ^ N.of_nat (S k) = 2 * 2 ^ N.of_nat k)%N).
      { rewrite Nat2N.inj_succ. apply N.pow_succ_r'. }
      rewrite shl1_small by lia. rewrite <- Hpow.
      apply IH; try lia.
    + exists k. repeat split; auto. lia.
Qed.

(** For a size of at most [2^63] the padding loop returns the least power
    of two that is no smaller than the size. *)
Lemma next_power_of_2_spec (n : N) :
  (n <= 2 ^ 63)%N ->
  exists j : nat,
    (j <= 63)%nat
    /\ next_power_of_2 n = Some (2 ^ N.of_nat j)%N
    /\ (n <= 2 ^ N.of_nat j)%N
    /\ (2 ^ N.of_nat j < 2 * n \/ j = 0%nat)%N.
Proof.
  intros Hn. unfold next_power_of_2, loop_fuel.
  change 1%N with (2 ^ N.of_nat 0)%N.
  apply (next_power_of_2_loop_spec 63); auto; lia.
Qed.

(** Above [2^63] the padding loop never leaves: [p] doubles up to [2^63],
    wraps to 0 and stays there, below [n]. *)
Lemma next_power_of_2_loop_zero (n : N) (fuel : nat) :
  (0 < n)%N -> next_power_of_2_loop fuel 0%N n = None.
Proof.
  intros Hn. induction fuel as [| fuel IH]; cbn [next_power_of_2_loop].
  - reflexivity.
  - destruct (N.ltb_spec 0 n); [| lia]. exact IH.
Qed.

Lemma next_power_of_2_loop_diverges (n : N) (d : nat) :
  (2 ^ 63 < n)%N ->
  forall (k fuel : nat),
    (k + d = 63)%nat ->
    next_power_of_2_loop fuel (2 ^ N.of_nat k)%N n = None.
Proof.
  intros Hn. induction d as [| d IH]; intros k fuel Hk;
    (destruct fuel as [| fuel]; [reflexivity |]);
    cbn [next_power_of_2_loop].
  - assert (k = 63%nat) by lia. subst k.
    change (N.of_nat 63) with 63%N.
    destruct (N.ltb_spec (2 ^ 63) n); [| lia].
    change (SizeT.shl1 (2 ^ 63)) with 0%N.
    apply next_power_of_2_loop_zero. lia.
  - assert (Hpow : (2 ^ N.of_nat (S k) = 2 * 2 ^ N.of_nat k)%N).
    { rewrite Nat2N.inj_succ. apply N.pow_succ_r'. }
    assert (Hle : (2 ^ N.of_nat (S k) <= 2 ^ 63)%N).
    { apply N.pow_le_mono_r; lia. }
    destruct (N.ltb_spec (2 ^ N.of_nat k) n); [| lia].
    rewrite shl1_small by lia. rewrite <- Hpow.
    apply IH. lia.
Qed.

Lemma next_power_of_2_diverges (n : N) (fuel : nat) :
  (2 ^ 63 < n)%N -> next_power_of_2_loop fuel 1%N n = None.
Proof.
  intros Hn. change 1%N with (2 ^ N.of_nat 0)%N.
  apply (next_power_of_2_loop_diverges n 63 Hn). reflexivity.
Qed.

(** ** Bit reversal *)

Lemma pow2_of_nat (b : nat) : (2 ^ N.of_nat b)%N = N.of_nat (2 ^ b).
Proof. now rewrite Nat2N.inj_pow. Qed.

Lemma pow2_pos (b : nat) : (0 < 2 ^ b)%nat.
Proof. induction b; cbn; lia. Qed.

Lemma pow2_mono (a b : nat) : (a <= b)%nat -> (2 ^ a <= 2 ^ b)%nat.
Proof. intros H. apply Nat.pow_le_mono_r; lia. Qed.

Lemma lor_shl1_bit (r m : N) :
  (r < 2 ^ 63)%N ->
  N.lor (SizeT.shl1 r) (N.land m 1) = (2 * r + m mod 2)%N.
Proof.
  intros Hr. rewrite shl1_small by lia.
  change 1%N with (N.ones 1). rewrite N.land_ones. change (2 ^ 1)%N with 2%N.
  assert (Hb : (m mod 2 = 0 \/ m mod 2 = 1)%N).
  { pose proof (N.mod_upper_bound m 2 ltac:(discriminate)). lia. }
  destruct Hb as [-> | ->].
  - rewrite N.lor_0_r. lia.
  - destruct r as [| p]; reflexivity.
Qed.

Lemma rev_bits_lt (b m : nat) : (rev_bits b m < 2 ^ b)%nat.
Proof.
  revert m. induction b as [| b IH]; intros m; cbn [rev_bits Nat.pow].
  - lia.
  - specialize (IH (m / 2)%nat).
    pose proof (Nat.mod_upper_bound m 2).
    assert (m mod 2 = 0 \/ m mod 2 = 1)%nat as [-> | ->] by lia; lia.
Qed.

Lemma bit_reverse_loop_spec (count : nat) :
  forall (k : nat) (r m : N),
    (r < 2 ^ N.of_nat k)%N -> (k + count <= 64)%nat ->
    bit_reverse_loop count r m
    = (r * 2 ^ N.of_nat count + N.of_nat (rev_bits count (N.to_nat m)))%N.
Proof.
  induction count as [| count IH]; intros k r m Hr Hk;
    cbn [bit_reverse_loop rev_bits].
  - cbn. lia.
  - assert (Hpow : (2 ^ N.of_nat (S count) = 2 * 2 ^ N.of_nat count)%N).
    { rewrite Nat2N.inj_succ. apply N.pow_succ_r'. }
    assert (Hpowk : (2 ^ N.of_nat (S k) = 2 * 2 ^ N.of_nat k)%N).
    { rewrite Nat2N.inj_succ. apply N.pow_succ_r'. }
    assert (Hk63 : (2 ^ N.of_nat k <= 2 ^ 63)%N).
    { apply N.pow_le_mono_r; lia. }
    rewrite Hpow.
    rewrite lor_shl1_bit by lia.
    rewrite (IH (S k)) by lia.
    rewrite shr1_half.
    rewrite Nat2N.inj_add, Nat2N.inj_mul.
    rewrite <- pow2_of_nat.
    replace (N.to_nat m / 2)%nat with (N.to_nat (m / 2)).
    2:{ rewrite N2Nat.inj_div. reflexivity. }
    replace (N.of_nat (N.to_nat m mod 2)) with (m mod 2)%N.
    2:{ rewrite <- (N2Nat.id (m mod 2)). rewrite N2Nat.inj_mod.
        reflexivity. }
    ring.
Qed.

(** Below 64 bits, [bit_reverse] reverses the [bits] low bits. *)
Lemma bit_reverse_spec (i bits : nat) :
  (bits <= 64)%nat ->
  bit_reverse (N.of_nat i) (N.of_nat bits) = N.of_nat (rev_bits bits i).
Proof.
  intros Hb. unfold bit_reverse.
  rewrite Nat2N.id, (bit_reverse_loop_spec bits 0%nat) by (cbn; lia).
  rewrite Nat2N.id. lia.
Qed.

Lemma rev_bits_even (b m : nat) : rev_bits (S b) (2 * m) = rev_bits b m.
Proof.
  cbn [rev_bits].
  replace ((2 * m) mod 2)%nat with 0%nat.
  2:{ rewrite Nat.mul_comm. symmetry. apply Nat.Div0.mod_mul. }
  replace (2 * m / 2)%nat with m.
  2:{ rewrite Nat.mul_comm. symmetry. apply Nat.div_mul. lia. }
  lia.
Qed.

Lemma rev_bits_odd (b m : nat) :
  rev_bits (S b) (2 * m + 1) = (2 ^ b + rev_bits b m)%nat.
Proof.
  cbn [rev_bits].
  replace ((2 * m + 1) mod 2)%nat with 1%nat.
  2:{ rewrite Nat.add_comm, Nat.mul_comm, Nat.Div0.mod_add. reflexivity. }
  replace ((2 * m + 1) / 2)%nat with m.
  2:{ rewrite Nat.add_comm, Nat.mul_comm, Nat.div_add by lia. reflexivity. }
  lia.
Qed.

(** Reversal looks at the [b] low bits only, and adds the top bit of an
    extended width at the bottom. *)
Lemma rev_bits_top (b : nat) :
  forall m : nat,
    rev_bits (S b) m = (2 * rev_bits b m + (m / 2 ^ b) mod 2)%nat.
Proof.
  induction b as [| b IH]; intros m.
  - cbn [rev_bits]. change (2 ^ 0)%nat with 1%nat.
    rewrite Nat.div_1_r. lia.
  - change (rev_bits (S (S b)) m)
      with ((m mod 2) * 2 ^ S b + rev_bits (S b) (m / 2))%nat.
    rewrite IH.
    change (rev_bits (S b) m)
      with ((m mod 2) * 2 ^ b + rev_bits b (m / 2))%nat.
    rewrite Nat.Div0.div_div.
    change (2 ^ S b)%nat with (2 * 2 ^ b)%nat.
    lia.
Qed.

Lemma rev_bits_mod (b : nat) :
  forall m : nat, rev_bits b (m mod 2 ^ b) = rev_bits b m.
Proof.
  induction b as [| b IH]; intros m.
  - reflexivity.
  - cbn [rev_bits].
    assert (H2 : (2 ^ S b = 2 * 2 ^ b)%nat) by reflexivity.
    pose proof (pow2_pos b) as Hpos.
    rewrite H2.
    rewrite Nat.Div0.mod_mul_r.
    set (X := ((m / 2) mod 2 ^ b)%nat).
    replace ((m mod 2 + 2 * X) mod 2)%nat with (m mod 2)%nat by lia.
    replace ((m mod 2 + 2 * X) / 2)%nat with X by lia.
    unfold X.
    now rewrite IH.
Qed.

Lemma rev_bits_involutive (b : nat) :
  forall m : nat, (m < 2 ^ b)%nat -> rev_bits b (rev_bits b m) = m.
Proof.
  induction b as [| b IH]; intros m Hm.
  - cbn in *. lia.
  - rewrite rev_bits_top.
    pose proof (pow2_pos b) as Hpos.
    pose proof (rev_bits_lt b (m / 2)) as Hlt.
    pose proof (Nat.mod_upper_bound m 2) as Hmod.
    assert (Hhalf : (m / 2 < 2 ^ b)%nat).
    { apply Nat.Div0.div_lt_upper_bound. cbn in Hm. lia. }
    cbn [rev_bits].
    rewrite <- (rev_bits_mod b ((m mod 2) * 2 ^ b + rev_bits b (m / 2))).
    replace (((m mod 2) * 2 ^ b + rev_bits b (m / 2)) mod 2 ^ b)%nat
      with (rev_bits b (m / 2)).
    2:{ rewrite Nat.add_comm, Nat.Div0.mod_add.
        symmetry. apply Nat.mod_small. assumption. }
    rewrite IH by assumption.
    replace (((m mod 2) * 2 ^ b + rev_bits b (m / 2)) / 2 ^ b)%nat
      with (m mod 2)%nat.
    2:{ rewrite Nat.add_comm, Nat.div_add by lia.
        rewrite (Nat.div_small (rev_bits b (m / 2))) by assumption.
        reflexivity. }
    rewrite Nat.Div0.mod_mod.
    pose proof (Nat.div_mod_eq m 2). lia.
Qed.

(** ** The number of bits *)

Lemma count_bits_loop_spec (b : nat) :
  forall (fuel : nat) (acc : N),
    (b < fuel)%nat -> (acc + N.of_nat b < 2 ^ 64)%N ->
    count_bits_loop fuel (2 ^ N.of_nat b)%N acc = Some (acc + N.of_nat b)%N.
Proof.
  induction b as [| b IH]; intros fuel acc Hfuel Hacc;
    (destruct fuel as [| fuel]; [lia |]); cbn [count_bits_loop].
  - cbn. f_equal. lia.
  - assert (Hpow : (2 ^ N.of_nat (S b) = 2 * 2 ^ N.of_nat b)%N).
    { rewrite Nat2N.inj_succ. apply N.pow_succ_r'. }
    assert (Hpos : (0 < 2 ^ N.of_nat b)%N).
    { apply N.neq_0_lt_0, N.pow_nonzero. lia. }
    rewrite Hpow.
    destruct (N.ltb_spec 1 (2 * 2 ^ N.of_nat b)) as [_ | Hle]; [| lia].
    rewrite shr1_half.
    replace (2 * 2 ^ N.of_nat b / 2)%N with (2 ^ N.of_nat b)%N.
    2:{ rewrite N.mul_comm, N.div_mul; lia. }
    rewrite add_small by lia.
    rewrite IH by lia. f_equal. lia.
Qed.

(** ** Complex arithmetic *)

Lemma cx_ring_theory :
  ring_theory Cx.zero Cx.one Cx.add Cx.mul Cx.sub cx_opp eq.
Proof.
  constructor; intros;
    repeat match goal with
           | z : Cx.complex |- _ => destruct z
           end;
    unfold Cx.add, Cx.mul, Cx.sub, cx_opp, Cx.zero, Cx.one, Cx.re, Cx.im;
    cbn [fst snd]; f_equal; ring.
Qed.

Add Ring cx_ring : cx_ring_theory.

Lemma cx_pow_add (z : Cx.complex) (a b : nat) :
  cx_pow z (a + b) = Cx.mul (cx_pow z a) (cx_pow z b).
Proof.
  induction a as [| a IH]; cbn [cx_pow Nat.add].
  - ring.
  - rewrite IH. ring.
Qed.

Lemma cx_pow_double (z : Cx.complex) (t : nat) :
  cx_pow z (2 * t) = cx_pow (Cx.mul z z) t.
Proof.
  induction t as [| t IH].
  - reflexivity.
  - replace (2 * S t)%nat with (S (S (2 * t))) by lia.
    cbn [cx_pow]. rewrite IH. ring.
Qed.

Lemma cx_pow_mul (z : Cx.complex) (a b : nat) :
  cx_pow z (a * b) = cx_pow (cx_pow z a) b.
Proof.
  induction b as [| b IH].
  - rewrite Nat.mul_0_r. reflexivity.
  - replace (a * S b)%nat with (a + a * b)%nat by lia.
    rewrite cx_pow_add, IH. reflexivity.
Qed.

Lemma cx_pow_one (n : nat) : cx_pow Cx.one n = Cx.one.
Proof.
  induction n as [| n IH]; cbn [cx_pow]; [reflexivity |].
  rewrite IH. ring.
Qed.

Lemma cx_pow_minus_one_odd (m : nat) :
  cx_pow (cx_opp Cx.one) (2 * m + 1) = cx_opp Cx.one.
Proof.
  rewrite cx_pow_add, cx_pow_double.
  replace (Cx.mul (cx_opp Cx.one) (cx_opp Cx.one)) with Cx.one by ring.
  rewrite cx_pow_one. cbn [cx_pow]. ring.
Qed.

Lemma cx_sum_ext (f g : nat -> Cx.complex) (n : nat) :
  (forall i, (i < n)%nat -> f i = g i) ->
  cx_sum f n = cx_sum g n.
Proof.
  induction n as [| n IH]; intros H; cbn [cx_sum].
  - reflexivity.
  - rewrite IH by (intros i Hi; apply H; lia).
    rewrite (H n) by lia. reflexivity.
Qed.

Lemma cx_sum_scale (c : Cx.complex) (f : nat -> Cx.complex) (n : nat) :
  cx_sum (fun i => Cx.mul c (f i)) n = Cx.mul c (cx_sum f n).
Proof.
  induction n as [| n IH]; cbn [cx_sum].
  - ring.
  - rewrite IH. ring.
Qed.

Lemma cx_sum_even_odd (f : nat -> Cx.complex) (m : nat) :
  cx_sum f (2 * m)
  = Cx.add (cx_sum (fun j => f (2 * j)%nat) m)
      (cx_sum (fun j => f (2 * j + 1)%nat) m).
Proof.
  induction m as [| m IH].
  - cbn. ring.
  - replace (2 * S m)%nat with (S (S (2 * m))) by lia.
    cbn [cx_sum]. rewrite IH.
    replace (S (2 * m)) with (2 * m + 1)%nat by lia.
    ring.
Qed.

(** ** One radix-2 step of the transform

    With [w] a root of unity of order [2 h] whose [h]-th power is [-1], a
    sum over [2 h] terms at the frequencies [k] and [k + h] is the
    butterfly of the sums over the even and the odd terms. *)

Section RadixTwoStep.

Variable w : Cx.complex.
Variable h : nat.
Hypothesis w_half : cx_pow w h = cx_opp Cx.one.

Variable z : nat -> Cx.complex.

Lemma radix2_low (k : nat) :
  cx_sum (fun m => Cx.mul (z m) (cx_pow w (k * m))) (2 * h)
  = Cx.add (half_sum w h (fun m => z (2 * m)%nat) k)
      (Cx.mul (cx_pow w k) (half_sum w h (fun m => z (2 * m + 1)%nat) k)).
Proof.
  rewrite cx_sum_even_odd. unfold half_sum. f_equal.
  - apply cx_sum_ext. intros m _.
    replace (k * (2 * m))%nat with (2 * (k * m))%nat by lia.
    now rewrite cx_pow_double.
  - rewrite <- cx_sum_scale. apply cx_sum_ext. intros m _.
    replace (k * (2 * m + 1))%nat with (2 * (k * m) + k)%nat by lia.
    rewrite cx_pow_add, cx_pow_double. ring.
Qed.

Lemma radix2_high (k : nat) :
  cx_sum (fun m => Cx.mul (z m) (cx_pow w ((k + h) * m))) (2 * h)
  = Cx.sub (half_sum w h (fun m => z (2 * m)%nat) k)
      (Cx.mul (cx_pow w k) (half_sum w h (fun m => z (2 * m + 1)%nat) k)).
Proof.
  rewrite cx_sum_even_odd. unfold half_sum.
  replace (Cx.sub
             (cx_sum (fun m => Cx.mul (z (2 * m))
                                 (cx_pow (Cx.mul w w) (k * m))) h)
             (Cx.mul (cx_pow w k)
                (cx_sum (fun m => Cx.mul (z (2 * m + 1))
                                    (cx_pow (Cx.mul w w) (k * m))) h)))
    with (Cx.add
            (cx_sum (fun m => Cx.mul (z (2 * m))
                                (cx_pow (Cx.mul w w) (k * m))) h)
            (Cx.mul (cx_opp (cx_pow w k))
               (cx_sum (fun m => Cx.mul (z (2 * m + 1))
                                   (cx_pow (Cx.mul w w) (k * m))) h)))
    by ring.
  f_equal.
  - apply cx_sum_ext. intros m _.
    replace ((k + h) * (2 * m))%nat with (2 * (k * m) + h * (2 * m))%nat
      by lia.
    rewrite cx_pow_add, cx_pow_double, (cx_pow_mul w h), w_half.
    rewrite cx_pow_double.
    replace (Cx.mul (cx_opp Cx.one) (cx_opp Cx.one)) with Cx.one by ring.
    rewrite cx_pow_one. ring.
  - rewrite <- cx_sum_scale. apply cx_sum_ext. intros m _.
    replace ((k + h) * (2 * m + 1))%nat
      with (2 * (k * m) + k + h * (2 * m + 1))%nat by lia.
    rewrite !cx_pow_add, cx_pow_double, (cx_pow_mul w h), w_half.
    rewrite cx_pow_minus_one_odd. ring.
Qed.

End RadixTwoStep.

(** ** The roots of unity *)

Lemma cis_add (a b : R) : cis (a + b) = Cx.mul (cis a) (cis b).
Proof.
  unfold cis, Cx.mul, Cx.re, Cx.im. cbn [fst snd].
  rewrite cos_plus, sin_plus. f_equal; ring.
Qed.

Lemma cis_0 : cis 0 = Cx.one.
Proof. unfold cis, Cx.one. now rewrite cos_0, sin_0. Qed.

Lemma cx_pow_cis (t : R) (n : nat) : cx_pow (cis t) n = cis (INR n * t).
Proof.
  induction n as [| n IH].
  - cbn [cx_pow INR]. rewrite Rmult_0_l. symmetry. apply cis_0.
  - cbn [cx_pow]. rewrite IH, <- cis_add, S_INR. f_equal. ring.
Qed.

Lemma twiddle_omega (len : nat) : twiddle (N.of_nat len) = omega len.
Proof.
  unfold twiddle, omega, cis, PI, SizeT.to_double.
  rewrite nat_N_Z, <- INR_IZR_INZ.
  replace (-2 * Rtrigo1.PI / INR len) with (- (2 * Rtrigo1.PI / INR len)).
  - reflexivity.
  - unfold Rdiv. ring.
Qed.

Lemma omega_half (h : nat) :
  (0 < h)%nat -> cx_pow (omega (2 * h)) h = cx_opp Cx.one.
Proof.
  intros Hh. unfold omega. rewrite cx_pow_cis.
  assert (Hn : INR h <> 0) by (apply not_0_INR; lia).
  replace (INR h * - (2 * Rtrigo1.PI / INR (2 * h))) with (- Rtrigo1.PI).
  2:{ rewrite mult_INR. change (INR 2) with 2. field. assumption. }
  unfold cis, cx_opp, Cx.one, Cx.re, Cx.im. cbn [fst snd].
  rewrite cos_neg, sin_neg, cos_PI, sin_PI. reflexivity.
Qed.

Lemma omega_square (h : nat) :
  (0 < h)%nat -> Cx.mul (omega (2 * h)) (omega (2 * h)) = omega h.
Proof.
  intros Hh. unfold omega. rewrite <- cis_add. f_equal.
  assert (Hn : INR h <> 0) by (apply not_0_INR; lia).
  rewrite mult_INR. change (INR 2) with 2. field. assumption.
Qed.

(** The transform in terms of the powers of the principal root. *)
Lemma dft_omega (x : list Cx.complex) (k : nat) :
  dft x k
  = cx_sum
      (fun m => Cx.mul (nth m x Cx.zero) (cx_pow (omega (length x)) (k * m)))
      (length x).
Proof.
  unfold dft. apply cx_sum_ext. intros m Hm. f_equal.
  unfold omega. rewrite cx_pow_cis. f_equal.
  assert (Hn : INR (length x) <> 0) by (apply not_0_INR; lia).
  rewrite mult_INR. field. assumption.
Qed.

(** ** The bit-reversal permutation *)

Section Permutation.

Variable B : nat.
Variable x : list Cx.complex.
Hypothesis B_small : (B <= 62)%nat.
Hypothesis x_length : length x = (2 ^ B)%nat.

Lemma swap_some (s : list Cx.complex) (i j : nat) :
  (i < length s)%nat -> (j < length s)%nat ->
  swap s (N.of_nat i) (N.of_nat j)
  = Some (Vec.upd (Vec.upd s i (nth j s Cx.zero)) j (nth i s Cx.zero)).
Proof.
  intros Hi Hj. unfold swap.
  rewrite (get_some s (N.of_nat i) Cx.zero) by (unfold Vec.size; lia).
  rewrite (get_some s (N.of_nat j) Cx.zero) by (unfold Vec.size; lia).
  cbn [bind]. rewrite !Nat2N.id.
  rewrite set_some by (unfold Vec.size; lia). cbn [bind].
  rewrite set_some by (rewrite size_upd; unfold Vec.size; lia).
  now rewrite !Nat2N.id.
Qed.

Lemma permute_step_invariant (i : N) (s : list Cx.complex) :
  (i < Vec.size x)%N ->
  permuted_up_to B x i s ->
  exists s',
    permute_step (N.of_nat B) i s = Some s' /\ permuted_up_to B x (i + 1) s'.
Proof.
  intros Hi [Hlen Hs0]. unfold Vec.size in Hi.
  pose (k := N.to_nat i).
  assert (Hik : i = N.of_nat k) by (unfold k; lia).
  clearbody k. subst i.
  assert (Hs : forall t : nat,
             (t < length x)%nat ->
             ((t < k \/ rev_bits B t < k)%nat ->
              nth t s Cx.zero = nth (rev_bits B t) x Cx.zero)
             /\ (~ (t < k \/ rev_bits B t < k)%nat ->
                 nth t s Cx.zero = nth t x Cx.zero)).
  { intros t Ht. specialize (Hs0 t Ht). now rewrite Nat2N.id in Hs0. }
  clear Hs0.
  assert (Hk : (k < length x)%nat) by lia.
  assert (Hrev_lt : forall t, (rev_bits B t < length x)%nat).
  { intros t. rewrite x_length. apply rev_bits_lt. }
  assert (Hrev_inv : forall t, (t < length x)%nat ->
                               rev_bits B (rev_bits B t) = t).
  { intros t Ht. apply rev_bits_involutive. now rewrite <- x_length. }
  unfold permute_step, permuted_up_to.
  rewrite bit_reverse_spec by lia.
  set (j := rev_bits B k).
  assert (Hj : (j < length x)%nat) by apply Hrev_lt.
  assert (Hjk : rev_bits B j = k) by (apply Hrev_inv; assumption).
  replace (N.to_nat (N.of_nat k + 1)) with (S k) by lia.
  destruct (Hs k Hk) as [Hk_new Hk_old]. fold j in Hk_new, Hk_old.
  destruct (Hs j Hj) as [_ Hj_old]. rewrite Hjk in Hj_old.
  destruct (N.ltb_spec (N.of_nat k) (N.of_nat j)) as [Hlt | Hge].
  - rewrite swap_some by lia.
    eexists. split; [reflexivity |].
    split; [now rewrite !upd_length |].
    intros t Ht.
    rewrite upd_nth by (rewrite upd_length; lia).
    rewrite upd_nth by lia.
    destruct (Hs t Ht) as [Ht_new Ht_old].
    assert (Hrt : rev_bits B t = k -> t = j).
    { intros E. unfold j. rewrite <- E. symmetry. now apply Hrev_inv. }
    destruct (Nat.eqb_spec t j) as [-> | Htj].
    + rewrite Hjk. split; [intros _ | intros H; exfalso; apply H; lia].
      apply Hk_old. lia.
    + destruct (Nat.eqb_spec t k) as [-> | Htk].
      * fold j. split; [intros _ | intros H; exfalso; apply H; lia].
        apply Hj_old. lia.
      * split; intros H.
        -- apply Ht_new. lia.
        -- apply Ht_old. lia.
  - exists s. split; [reflexivity |].
    split; [assumption |].
    intros t Ht.
    destruct (Hs t Ht) as [Ht_new Ht_old].
    assert (Hrt : rev_bits B t = k -> t = j).
    { intros E. unfold j. rewrite <- E. symmetry. now apply Hrev_inv. }
    split; intros H.
    + destruct (Nat.eq_dec t k) as [-> | Htk].
      * fold j. destruct (Nat.eq_dec j k) as [E | E].
        -- rewrite E. apply Hk_old. lia.
        -- apply Hk_new. lia.
      * apply Ht_new. lia.
    + apply Ht_old. lia.
Qed.

Lemma permute_loop_spec :
  exists y,
    for_range 0%N (Vec.size x) (permute_step (N.of_nat B)) x = Some y
    /\ length y = length x
    /\ forall t : nat,
         (t < length x)%nat ->
         nth t y Cx.zero = nth (rev_bits B t) x Cx.zero.
Proof.
  destruct (for_range_invariant (permuted_up_to B x)
              (permute_step (N.of_nat B)) (Vec.size x) x)
    as (y & Hrun & Hlen & Hy).
  - split; [reflexivity |].
    intros t Ht. split; [cbn; lia | reflexivity].
  - apply permute_step_invariant.
  - exists y. split; [assumption |]. split; [assumption |].
    intros t Ht. apply (Hy t Ht). unfold Vec.size. lia.
Qed.

End Permutation.

(** ** One block of butterflies *)

Section Block.

Variables i0 half : nat.
Variable wlen : Cx.complex.
Variable A : list Cx.complex.
Hypothesis block_inside : (i0 + 2 * half <= length A)%nat.
Hypothesis A_small : (N.of_nat (length A) < 2 ^ 63)%N.

Lemma butterfly_invariant (j : N) (st : list Cx.complex * Cx.complex) :
  (j < N.of_nat half)%N ->
  block_up_to i0 half wlen A j st ->
  exists st',
    butterfly (N.of_nat (2 * half)) (N.of_nat i0) wlen j st = Some st'
    /\ block_up_to i0 half wlen A (j + 1) st'.
Proof.
  intros Hj Hst. destruct st as [s w].
  destruct Hst as (Hw & Hlen & Hs0). cbn [fst snd] in *.
  pose (k := N.to_nat j).
  assert (Hjk : j = N.of_nat k) by (unfold k; lia).
  clearbody k. subst j. rewrite Nat2N.id in Hw.
  assert (Hs : forall p : nat,
             (p < length A)%nat ->
             ((i0 <= p < i0 + k \/ i0 + half <= p < i0 + half + k)%nat ->
              nth p s Cx.zero = block_value i0 half wlen A p)
             /\ (~ (i0 <= p < i0 + k
                    \/ i0 + half <= p < i0 + half + k)%nat ->
                 nth p s Cx.zero = nth p A Cx.zero)).
  { intros p Hp. specialize (Hs0 p Hp). now rewrite Nat2N.id in Hs0. }
  clear Hs0.
  unfold butterfly, block_up_to. cbn [fst snd].
  replace (N.of_nat (2 * half) / 2)%N with (N.of_nat half) by lia.
  rewrite (add_small (N.of_nat i0) (N.of_nat k)) by lia.
  rewrite add_small by lia.
  replace (N.of_nat i0 + N.of_nat k)%N with (N.of_nat (i0 + k)) by lia.
  replace (N.of_nat (i0 + k) + N.of_nat half)%N
    with (N.of_nat (i0 + k + half)) by lia.
  rewrite (get_some s (N.of_nat (i0 + k)) Cx.zero)
    by (unfold Vec.size; lia).
  rewrite (get_some s (N.of_nat (i0 + k + half)) Cx.zero)
    by (unfold Vec.size; lia).
  cbn [bind]. rewrite !Nat2N.id.
  rewrite set_some by (unfold Vec.size; lia). cbn [bind].
  rewrite set_some by (rewrite size_upd; unfold Vec.size; lia).
  cbn [bind]. rewrite !Nat2N.id.
  eexists. split; [reflexivity |]. cbn [fst snd].
  replace (N.to_nat (N.of_nat k + 1)) with (S k) by lia.
  split; [cbn [cx_pow]; rewrite Hw; ring |].
  split; [now rewrite !upd_length |].
  intros p Hp.
  rewrite upd_nth by (rewrite upd_length; lia).
  rewrite upd_nth by lia.
  destruct (Hs (i0 + k)%nat) as [_ Hlo]; [lia |].
  destruct (Hs (i0 + k + half)%nat) as [_ Hhi]; [lia |].
  rewrite Hlo by lia. rewrite Hhi by lia.
  destruct (Hs p Hp) as [Hp_new Hp_old].
  destruct (Nat.eqb_spec p (i0 + k + half)) as [-> | Hp_hi].
  - split; [intros _ | intros H; exfalso; apply H; lia].
    unfold block_value.
    destruct (Nat.ltb_spec (i0 + k + half) (i0 + half)); [lia |].
    replace (i0 + k + half - half)%nat with (i0 + k)%nat by lia.
    replace (i0 + k - i0)%nat with k by lia.
    rewrite Hw. reflexivity.
  - destruct (Nat.eqb_spec p (i0 + k)) as [-> | Hp_lo].
    + split; [intros _ | intros H; exfalso; apply H; lia].
      unfold block_value.
      destruct (Nat.ltb_spec (i0 + k) (i0 + half)); [| lia].
      replace (i0 + k - i0)%nat with k by lia.
      rewrite Hw. reflexivity.
    + split; intros H.
      * apply Hp_new. lia.
      * apply Hp_old. lia.
Qed.

Lemma fft_block_spec :
  exists A',
    fft_block (N.of_nat (2 * half)) (N.of_nat i0) wlen A = Some A'
    /\ length A' = length A
    /\ forall p : nat,
         (p < length A)%nat ->
         nth p A' Cx.zero
         = if ((i0 <=? p) && (p <? i0 + 2 * half))%nat
           then block_value i0 half wlen A p
           else nth p A Cx.zero.
Proof.
  unfold fft_block.
  replace (N.of_nat (2 * half) / 2)%N with (N.of_nat half) by lia.
  destruct (for_range_invariant (block_up_to i0 half wlen A)
              (butterfly (N.of_nat (2 * half)) (N.of_nat i0) wlen)
              (N.of_nat half) (A, Cx.one))
    as ([A' w'] & Hrun & Hw & Hlen & HA').
  - split; [reflexivity |]. split; [reflexivity |].
    intros p Hp. cbn [fst]. split; [cbn; lia | reflexivity].
  - apply butterfly_invariant.
  - rewrite Hrun. cbn [bind fst snd] in *.
    exists A'. split; [reflexivity |]. split; [assumption |].
    intros p Hp. destruct (HA' p Hp) as [Hnew Hold].
    rewrite Nat2N.id in Hnew, Hold.
    destruct (Nat.leb_spec i0 p); destruct (Nat.ltb_spec p (i0 + 2 * half));
      cbn [andb]; try (apply Hold; lia).
    apply Hnew. lia.
Qed.

End Block.

(** ** One stage *)

Lemma div_in_block (c L p : nat) :
  (c * L <= p < c * L + L)%nat -> (p / L = c)%nat.
Proof.
  intros Hp. symmetry.
  apply (Nat.div_unique p L c (p - c * L)); lia.
Qed.

Section Stage.

Variable half : nat.
Variable wlen : Cx.complex.
Variable A : list Cx.complex.
Variable nb : nat.
Hypothesis half_pos : (0 < half)%nat.
Hypothesis A_length : length A = (nb * (2 * half))%nat.
Hypothesis A_small : (N.of_nat (length A) < 2 ^ 63)%N.

Lemma fft_blocks_spec (r : nat) :
  forall (c fuel : nat) (X : list Cx.complex),
    (c + r = nb)%nat -> (r < fuel)%nat ->
    length X = length A ->
    (forall p : nat,
        (p < length A)%nat ->
        nth p X Cx.zero
        = if (p <? c * (2 * half))%nat
          then stage_value half wlen A p
          else nth p A Cx.zero) ->
    exists X',
      fft_blocks fuel (N.of_nat (length A)) (N.of_nat (2 * half))
        (N.of_nat (c * (2 * half))) wlen X = Some X'
      /\ length X' = length A
      /\ forall p : nat,
           (p < length A)%nat ->
           nth p X' Cx.zero = stage_value half wlen A p.
Proof.
  induction r as [| r IH]; intros c fuel X Hc Hfuel Hlen HX;
    (destruct fuel as [| fuel]; [lia |]); cbn [fft_blocks].
  - assert (c = nb) by lia. subst c.
    destruct (N.ltb_spec (N.of_nat (nb * (2 * half)))
                (N.of_nat (length A))) as [Hlt | _]; [lia |].
    exists X. split; [reflexivity |]. split; [assumption |].
    intros p Hp. rewrite (HX p Hp).
    destruct (Nat.ltb_spec p (nb * (2 * half))); [reflexivity | lia].
  - set (L := (2 * half)%nat) in *.
    set (i0 := (c * L)%nat) in *.
    assert (Hnext : (S c * L = i0 + L)%nat) by (unfold i0; lia).
    assert (Hin : (i0 + L <= length A)%nat).
    { rewrite A_length, <- Hnext. apply Nat.mul_le_mono_r. lia. }
    destruct (N.ltb_spec (N.of_nat i0) (N.of_nat (length A)))
      as [_ | Hge]; [| lia].
    destruct (fft_block_spec i0 half wlen X) as (X1 & Hrun & Hlen1 & HX1).
    { fold L. lia. }
    { lia. }
    fold L in Hrun. rewrite Hrun. cbn [bind].
    rewrite add_small by lia.
    replace (N.of_nat i0 + N.of_nat L)%N with (N.of_nat (S c * L)) by lia.
    apply IH; try lia.
    intros p Hp. rewrite HX1 by lia. fold L. rewrite Hnext.
    destruct (Nat.leb_spec i0 p) as [Hlo | Hlo];
      destruct (Nat.ltb_spec p (i0 + L)) as [Hhi | Hhi]; cbn [andb].
    + unfold stage_value. fold L.
      rewrite (div_in_block c L p) by (fold i0; lia). fold i0.
      unfold block_value.
      destruct (Nat.ltb_spec p (i0 + half)).
      * rewrite (HX p) by lia. rewrite (HX (p + half)%nat) by lia.
        fold i0.
        destruct (Nat.ltb_spec p i0); [lia |].
        destruct (Nat.ltb_spec (p + half) i0); [lia | reflexivity].
      * rewrite (HX p) by lia. rewrite (HX (p - half)%nat) by lia.
        fold i0.
        destruct (Nat.ltb_spec p i0); [lia |].
        destruct (Nat.ltb_spec (p - half) i0); [lia | reflexivity].
    + rewrite (HX p) by lia. fold i0.
      destruct (Nat.ltb_spec p i0); [lia | reflexivity].
    + rewrite (HX p) by lia. fold i0.
      destruct (Nat.ltb_spec p i0); [reflexivity | lia].
    + lia.
Qed.

(** A whole stage leaves [stage_value] at every index. *)
Lemma fft_stage_spec :
  exists X',
    fft_blocks (S (N.to_nat (N.of_nat (length A)))) (N.of_nat (length A))
      (N.of_nat (2 * half)) 0%N wlen A = Some X'
    /\ length X' = length A
    /\ forall p : nat,
         (p < length A)%nat ->
         nth p X' Cx.zero = stage_value half wlen A p.
Proof.
  change 0%N with (N.of_nat (0 * (2 * half))).
  apply (fft_blocks_spec nb); try lia.
  - rewrite Nat2N.id, A_length. nia.
  - intros p Hp. reflexivity.
Qed.

End Stage.

(** ** All the stages *)

Lemma stage_done_0 (y : list Cx.complex) : stage_done y 0 y.
Proof.
  split; [reflexivity |].
  intros blk k Hk Hp. cbn in Hk. assert (k = 0%nat) by lia. subst k.
  cbn [Nat.pow cx_sum rev_bits Nat.mul cx_pow].
  ring.
Qed.

Section StageStep.

Variable y : list Cx.complex.
Variable B s : nat.
Variables A A' : list Cx.complex.
Hypothesis y_length : length y = (2 ^ B)%nat.
Hypothesis s_lt : (s < B)%nat.
Hypothesis A_done : stage_done y s A.
Hypothesis A'_length : length A' = length A.
Hypothesis A'_values :
  forall p : nat,
    (p < length A)%nat ->
    nth p A' Cx.zero = stage_value (2 ^ s) (omega (2 * 2 ^ s)) A p.

Lemma stage_done_step : stage_done y (S s) A'.
Proof.
  destruct A_done as [HlenA HA].
  split; [congruence |].
  change (2 ^ S s)%nat with (2 * 2 ^ s)%nat.
  pose proof (pow2_pos s) as Hh.
  set (h := (2 ^ s)%nat) in *.
  assert (Hn : length y = (2 ^ (B - S s) * (2 * h))%nat).
  { rewrite y_length. unfold h.
    change (2 * 2 ^ s)%nat with (2 ^ S s)%nat.
    rewrite <- Nat.pow_add_r. f_equal. lia. }
  intros blk k Hk Hp.
  assert (Hblk : (blk * (2 * h) + 2 * h <= length y)%nat).
  { rewrite Hn in *. set (nb := (2 ^ (B - S s))%nat) in *.
    assert (blk < nb)%nat by nia. nia. }
  rewrite A'_values by lia.
  unfold stage_value.
  rewrite (div_in_block blk (2 * h) (blk * (2 * h) + k)) by lia.
  pose proof (omega_half h Hh) as Hw.
  pose proof (omega_square h Hh) as Hsq.
  unfold block_value.
  destruct (Nat.ltb_spec (blk * (2 * h) + k) (blk * (2 * h) + h))
    as [Hlow | Hhigh].
  - rewrite (radix2_low (omega (2 * h)) h
               (fun m => nth (blk * (2 * h) + rev_bits (S s) m) y Cx.zero)).
    unfold half_sum. rewrite Hsq.
    replace (blk * (2 * h) + k - blk * (2 * h))%nat with k by lia.
    replace (blk * (2 * h) + k)%nat with (2 * blk * h + k)%nat by lia.
    replace (2 * blk * h + k + h)%nat with ((2 * blk + 1) * h + k)%nat
      by lia.
    rewrite (HA (2 * blk)%nat k) by lia.
    rewrite (HA (2 * blk + 1)%nat k) by lia.
    f_equal; [| f_equal]; apply cx_sum_ext; intros m Hm; f_equal; f_equal.
    + rewrite rev_bits_even. lia.
    + rewrite rev_bits_odd. fold h. lia.
  - assert (Hk' : exists k', k = (k' + h)%nat) by (exists (k - h)%nat; lia).
    destruct Hk' as [k' ->].
    rewrite (radix2_high (omega (2 * h)) h Hw
               (fun m => nth (blk * (2 * h) + rev_bits (S s) m) y Cx.zero)).
    unfold half_sum. rewrite Hsq.
    replace (blk * (2 * h) + (k' + h) - h - blk * (2 * h))%nat with k'
      by lia.
    replace (blk * (2 * h) + (k' + h) - h)%nat with (2 * blk * h + k')%nat
      by lia.
    replace (blk * (2 * h) + (k' + h))%nat
      with ((2 * blk + 1) * h + k')%nat by lia.
    rewrite (HA (2 * blk)%nat k') by lia.
    rewrite (HA (2 * blk + 1)%nat k') by lia.
    f_equal; [| f_equal]; apply cx_sum_ext; intros m Hm; f_equal; f_equal.
    + rewrite rev_bits_even. lia.
    + rewrite rev_bits_odd. fold h. lia.
Qed.

End StageStep.

Section Stages.

Variable y : list Cx.complex.
Variable B : nat.
Hypothesis y_length : length y = (2 ^ B)%nat.
Hypothesis B_small : (B <= 62)%nat.

Lemma length_small : (N.of_nat (length y) < 2 ^ 63)%N.
Proof.
  rewrite y_length, <- pow2_of_nat.
  apply N.le_lt_trans with (2 ^ 62)%N; [| reflexivity].
  apply N.pow_le_mono_r; lia.
Qed.

Lemma fft_stages_spec (r : nat) :
  forall (s fuel : nat) (A : list Cx.complex),
    (s + r = B)%nat -> (r < fuel)%nat ->
    stage_done y s A ->
    exists A',
      fft_stages fuel (N.of_nat (length y)) (N.of_nat (2 ^ S s)) A = Some A'
      /\ stage_done y B A'.
Proof.
  pose proof length_small as Hsmall.
  induction r as [| r IH]; intros s fuel A Hs Hfuel HA;
    (destruct fuel as [| fuel]; [lia |]); cbn [fft_stages];
    change (2 ^ S s)%nat with (2 * 2 ^ s)%nat;
    pose proof (pow2_pos s) as Hh.
  - assert (s = B) by lia. subst s.
    destruct (N.leb_spec (N.of_nat (2 * 2 ^ B)) (N.of_nat (length y)))
      as [Hle | _]; [lia |].
    exists A. split; [reflexivity | assumption].
  - pose proof (pow2_mono (S s) B ltac:(lia)) as Hmono.
    change (2 ^ S s)%nat with (2 * 2 ^ s)%nat in Hmono.
    destruct (N.leb_spec (N.of_nat (2 * 2 ^ s)) (N.of_nat (length y)))
      as [_ | Hgt]; [| lia].
    destruct HA as [HlenA HA].
    destruct (fft_stage_spec (2 ^ s) (twiddle (N.of_nat (2 * 2 ^ s))) A
                (2 ^ (B - S s)))
      as (A1 & Hrun & Hlen1 & HA1).
    + assumption.
    + rewrite HlenA, y_length.
      change (2 * 2 ^ s)%nat with (2 ^ S s)%nat.
      rewrite <- Nat.pow_add_r. f_equal. lia.
    + now rewrite HlenA.
    + rewrite HlenA in Hrun. rewrite Hrun. cbn [bind].
      rewrite shl1_small.
      2:{ pose proof (pow2_mono (S (S s)) (S B) ltac:(lia)) as H2.
          change (2 ^ S (S s))%nat with (2 * (2 * 2 ^ s))%nat in H2.
          change (2 ^ S B)%nat with (2 * 2 ^ B)%nat in H2.
          lia. }
      replace (2 * N.of_nat (2 * 2 ^ s))%N with (N.of_nat (2 ^ S (S s))).
      2:{ change (2 ^ S (S s))%nat with (2 * (2 * 2 ^ s))%nat. lia. }
      apply IH; try lia.
      apply (stage_done_step y B s A A1); try assumption.
      * lia.
      * split; assumption.
      * intros p Hp. rewrite HA1 by assumption.
        now rewrite twiddle_omega.
Qed.

End Stages.

(** ** The transform as a whole *)

Lemma dft_list_length (x : list Cx.complex) :
  length (dft_list x) = length x.
Proof. unfold dft_list. now rewrite length_map, length_seq. Qed.

Lemma dft_list_nth (x : list Cx.complex) (k : nat) :
  (k < length x)%nat -> nth k (dft_list x) Cx.zero = dft x k.
Proof.
  intros Hk. unfold dft_list.
  rewrite (nth_indep _ Cx.zero (dft x 0)) by (now rewrite length_map, length_seq).
  rewrite (map_nth (dft x) (seq 0 (length x)) 0%nat k).
  now rewrite seq_nth.
Qed.

Lemma dft_single (a : Cx.complex) : dft_list [a] = [a].
Proof.
  unfold dft_list, dft. cbn [length seq map cx_sum nth INR].
  rewrite !Rmult_0_r. unfold Rdiv. rewrite Rmult_0_l, Ropp_0, cis_0.
  f_equal. ring.
Qed.

(** On a buffer of [2^B] elements, [B <= 62], the in-place transform
    ends, without reading or writing outside the buffer, and leaves the
    forward discrete Fourier transform. *)
Lemma fft_recursive_dft_list (B : nat) (x : list Cx.complex) :
  length x = (2 ^ B)%nat -> (B <= 62)%nat ->
  fft_recursive x = Some (dft_list x).
Proof.
  intros Hlen HB. unfold fft_recursive.
  destruct B as [| B].
  - destruct x as [| a [| b x]]; try discriminate Hlen.
    rewrite dft_single. reflexivity.
  - pose proof (pow2_pos B) as Hpos.
    destruct (N.leb_spec (Vec.size x) 1) as [Hle | _].
    { unfold Vec.size in Hle. rewrite Hlen in Hle.
      change (2 ^ S B)%nat with (2 * 2 ^ B)%nat in Hle. lia. }
    unfold Vec.size at 1. rewrite Hlen, <- pow2_of_nat.
    rewrite count_bits_loop_spec by (unfold loop_fuel; cbn; lia).
    cbn [bind]. rewrite N.add_0_l.
    destruct (permute_loop_spec (S B) x HB Hlen) as (y & Hrun & Hleny & Hy).
    rewrite Hrun. cbn [bind].
    destruct (fft_stages_spec y (S B) (eq_trans Hleny Hlen) HB (S B)
                0%nat loop_fuel y)
      as (X & HrunX & HlenX & HX).
    + lia.
    + unfold loop_fuel. lia.
    + apply stage_done_0.
    + unfold Vec.size. rewrite <- Hleny.
      change (2 ^ 1)%nat with 2%nat in HrunX. change (N.of_nat 2) with 2%N in HrunX.
      rewrite HrunX. f_equal.
      apply (nth_ext_eq X (dft_list x) Cx.zero).
      * now rewrite dft_list_length, HlenX.
      * intros k Hk. rewrite HlenX, Hleny in Hk.
        rewrite dft_list_nth by assumption.
        rewrite dft_omega.
        specialize (HX 0%nat k). cbn [Nat.mul Nat.add] in HX.
        rewrite HX by (rewrite ?Hleny, ?Hlen in *; lia).
        rewrite Hlen. apply cx_sum_ext. intros m Hm.
        rewrite Hy by (rewrite Hlen; apply rev_bits_lt).
        rewrite rev_bits_involutive by assumption.
        reflexivity.
Qed.

(** ** The one-sided spectrum *)

Lemma to_double_of_nat (k : nat) : SizeT.to_double (N.of_nat k) = INR k.
Proof.
  unfold SizeT.to_double. rewrite nat_N_Z. symmetry. apply INR_IZR_INZ.
Qed.

Lemma copy_loop_spec (signal : list R) (n : nat) :
  (length signal <= n)%nat ->
  for_range 0%N (Vec.size signal)
    (fun i x => s <- Vec.get signal i ;; Vec.set x i (Cx.of_real s))
    (Vec.make (N.of_nat n) Cx.zero)
  = Some (pad signal n).
Proof.
  intros Hlen.
  destruct (for_range_invariant (copied_up_to signal n)
              (fun i x => s <- Vec.get signal i ;; Vec.set x i (Cx.of_real s))
              (Vec.size signal) (Vec.make (N.of_nat n) Cx.zero))
    as (x & Hrun & Hx_len & Hx).
  - unfold copied_up_to.
    split; [now rewrite make_length, Nat2N.id |].
    intros t Ht. cbn [N.to_nat Nat.ltb Nat.leb]. apply make_nth.
  - intros i x Hi [Hx_len Hx]. unfold Vec.size in Hi.
    rewrite (get_some signal i 0) by (unfold Vec.size; lia).
    cbn [bind].
    rewrite set_some by (unfold Vec.size; lia).
    eexists. split; [reflexivity |]. unfold copied_up_to.
    split; [now rewrite upd_length |].
    intros t Ht. rewrite upd_nth by lia. rewrite Hx by assumption.
    replace (N.to_nat (i + 1)) with (S (N.to_nat i)) by lia.
    destruct (Nat.eqb_spec t (N.to_nat i)) as [-> | Hne].
    + destruct (Nat.ltb_spec (N.to_nat i) (S (N.to_nat i)));
        [reflexivity | lia].
    + destruct (Nat.ltb_spec t (N.to_nat i));
        destruct (Nat.ltb_spec t (S (N.to_nat i))); try reflexivity; lia.
  - rewrite Hrun. f_equal.
    apply (nth_ext_eq x (pad signal n) Cx.zero).
    + unfold pad. rewrite length_app, length_map, repeat_length. lia.
    + intros t Ht. rewrite Hx by lia. unfold pad, Vec.size.
      rewrite Nat2N.id.
      destruct (Nat.ltb_spec t (length signal)) as [Hlt | Hge].
      * rewrite app_nth1 by (now rewrite length_map).
        rewrite (nth_indep _ Cx.zero (Cx.of_real 0))
          by (now rewrite length_map).
        now rewrite map_nth.
      * rewrite app_nth2 by (now rewrite length_map).
        symmetry. apply nth_repeat.
Qed.

Lemma spectrum_loop_spec (X : list Cx.complex) (n : nat) (rate : R) :
  length X = n ->
  exists magnitudes frequencies,
    for_range 0%N (N.of_nat (n / 2))
      (spectrum_step X (N.of_nat n) (rate / INR n))
      (Vec.make (N.of_nat (n / 2)) 0, Vec.make (N.of_nat (n / 2)) 0)
    = Some (magnitudes, frequencies)
    /\ length magnitudes = (n / 2)%nat
    /\ length frequencies = (n / 2)%nat
    /\ forall t : nat,
         (t < n / 2)%nat ->
         nth t magnitudes 0 = Cx.abs (nth t X Cx.zero) * 2 / INR n
         /\ nth t frequencies 0 = INR t * (rate / INR n).
Proof.
  intros HX.
  destruct (for_range_invariant (spectrum_up_to X n rate)
              (spectrum_step X (N.of_nat n) (rate / INR n))
              (N.of_nat (n / 2))
              (Vec.make (N.of_nat (n / 2)) 0, Vec.make (N.of_nat (n / 2)) 0))
    as ([m f] & Hrun & Hm & Hf & Hval).
  - unfold spectrum_up_to. cbn [fst snd]. rewrite !make_length, !Nat2N.id.
    split; [reflexivity |]. split; [reflexivity |].
    intros t Ht. cbn in Ht. lia.
  - intros i [m f] Hi (Hm & Hf & Hval). cbn [fst snd] in *.
    unfold spectrum_step, spectrum_up_to.
    rewrite (get_some X i Cx.zero) by (unfold Vec.size; lia).
    cbn [bind].
    rewrite set_some by (unfold Vec.size; lia). cbn [bind].
    rewrite set_some by (unfold Vec.size; lia). cbn [bind].
    eexists. split; [reflexivity |]. cbn [fst snd].
    rewrite !upd_length.
    split; [assumption |]. split; [assumption |].
    intros t Ht. rewrite !upd_nth by lia.
    destruct (Nat.eqb_spec t (N.to_nat i)) as [-> | Hne].
    + rewrite to_double_of_nat.
      rewrite <- (to_double_of_nat (N.to_nat i)), N2Nat.id.
      split; reflexivity.
    + apply Hval. lia.
  - exists m, f. cbn [fst snd] in *.
    split; [assumption |]. split; [assumption |]. split; [assumption |].
    intros t Ht. apply Hval. lia.
Qed.

Lemma pad_length (signal : list R) (n : nat) :
  (length signal <= n)%nat -> length (pad signal n) = n.
Proof.
  intros H. unfold pad. rewrite length_app, length_map, repeat_length. lia.
Qed.

(** The padded length of a non-empty window of at most [2^62] samples. *)
Lemma padded_length (signal : list R) :
  signal <> [] ->
  (Vec.size signal <= 2 ^ 62)%N ->
  exists B : nat,
    (B <= 62)%nat
    /\ next_power_of_2 (Vec.size signal) = Some (N.of_nat (2 ^ B))
    /\ (length signal <= 2 ^ B)%nat
    /\ (2 ^ B < 2 * length signal)%nat.
Proof.
  intros Hne Hsize.
  assert (Hpos : (0 < length signal)%nat).
  { destruct signal; [contradiction | cbn; lia]. }
  destruct (next_power_of_2_spec (Vec.size signal)) as (j & Hj & Hrun & Hge & Hmin).
  { lia. }
  unfold Vec.size in *.
  assert (Hj62 : (j <= 62)%nat).
  { destruct Hmin as [H | ->]; [| lia].
    assert (H63 : (2 ^ N.of_nat j < 2 ^ 63)%N) by lia.
    apply N.pow_lt_mono_r_iff in H63; lia. }
  rewrite pow2_of_nat in *.
  assert (Hlt : (2 ^ j < 2 * length signal)%nat).
  { destruct Hmin as [H | ->]; [lia | cbn; lia]. }
  exists j. repeat split; try assumption; lia.
Qed.

(** With the padded length known, [compute_fft] returns the one-sided
    spectrum of the padded window. *)
Lemma compute_fft_padded (this : FeatureExtractor) (signal : list R)
  (B : nat) :
  signal <> [] ->
  (length signal <= 2 ^ B)%nat ->
  (B <= 62)%nat ->
  next_power_of_2 (Vec.size signal) = Some (N.of_nat (2 ^ B)) ->
  compute_fft this signal
  = Some (one_sided_spectrum (sample_rate_ this) signal (2 ^ B)).
Proof.
  intros Hne Hlen HB Hrun. unfold compute_fft.
  destruct signal as [| s0 signal']; [contradiction |].
  cbn [Vec.empty]. set (signal := s0 :: signal') in *.
  rewrite Hrun. cbn [bind].
  rewrite copy_loop_spec by assumption. cbn [bind].
  rewrite (fft_recursive_dft_list B) by (try apply pad_length; assumption).
  cbn [bind].
  pose proof (pow2_pos B) as Hpos.
  set (n := (2 ^ B)%nat) in *.
  set (X := dft_list (pad signal n)).
  assert (HX : length X = n).
  { unfold X. rewrite dft_list_length. now apply pad_length. }
  replace (N.of_nat n / 2)%N with (N.of_nat (n / 2)) by lia.
  rewrite to_double_of_nat.
  destruct (spectrum_loop_spec X n (sample_rate_ this) HX)
    as (m & f & Hloop & Hm & Hf & Hval).
  rewrite Hloop. cbn [bind].
  assert (Hfreq : f = map (spectrum_frequency (sample_rate_ this) n)
                        (seq 0 (n / 2))).
  { apply (nth_ext_eq _ _ 0).
    - now rewrite length_map, length_seq.
    - intros t Ht. rewrite Hf in Ht.
      rewrite (nth_indep (map _ _) 0
                 (spectrum_frequency (sample_rate_ this) n 0))
        by (now rewrite length_map, length_seq).
      rewrite (map_nth (spectrum_frequency (sample_rate_ this) n)
                 (seq 0 (n / 2)) 0%nat t).
      rewrite seq_nth by assumption.
      apply Hval. assumption. }
  assert (HnR : INR n <> 0) by (apply not_0_INR; lia).
  destruct m as [| m0 m'].
  - cbn [Vec.empty negb bind]. unfold one_sided_spectrum. fold X.
    cbn [length] in Hm. rewrite <- Hm. cbn [seq map].
    rewrite Hfreq, <- Hm. reflexivity.
  - cbn [Vec.empty negb]. cbn [Vec.get N.to_nat nth_error bind].
    unfold Vec.set, Vec.size. cbn [length N.of_nat N.ltb N.compare].
    cbn [N.to_nat Vec.upd bind].
    unfold one_sided_spectrum. fold X. rewrite <- Hfreq.
    f_equal. f_equal.
    apply (nth_ext_eq _ _ 0).
    + cbn [length] in *. now rewrite length_map, length_seq.
    + intros t Ht. cbn [length] in Ht, Hm. rewrite Hm in Ht.
      rewrite (nth_indep (map _ _) 0 (spectrum_magnitude X n 0))
        by (now rewrite length_map, length_seq).
      rewrite (map_nth (spectrum_magnitude X n) (seq 0 (n / 2)) 0%nat t).
      rewrite seq_nth by assumption. cbn [Nat.add].
      unfold spectrum_magnitude.
      destruct (Hval t Ht) as [Hmag _].
      destruct t as [| t]; cbn [nth Nat.eqb] in *.
      * rewrite Hmag. field. assumption.
      * exact Hmag.
Qed.

(** ** Loops over the bins of a spectrum *)

Section Bins.

Context {S : Type}.
Variable I : S -> Prop.
Variable body : R -> R -> S -> option S.
Variable step : R -> R -> S -> S.
Hypothesis body_step :
  forall m f s, I s -> body m f s = Some (step m f s) /\ I (step m f s).

Lemma for_count_bins (ms : list R) :
  forall (fs pm pf : list R) (s : S),
    length pm = length pf -> I s ->
    for_count (Nat.min (length ms) (length fs)) (N.of_nat (length pm))
      (fun i s =>
         m <- Vec.get (pm ++ ms) i ;;
         f <- Vec.get (pf ++ fs) i ;;
         body m f s)
      s
    = Some (fold_left (fun s bin => step (fst bin) (snd bin) s)
              (combine ms fs) s).
Proof.
  induction ms as [| m ms IH]; intros fs pm pf s Hlen Hs.
  - reflexivity.
  - destruct fs as [| f fs]; [reflexivity |].
    cbn [length Nat.min for_count combine fold_left fst snd].
    unfold Vec.get at 1 2. rewrite Nat2N.id.
    rewrite nth_error_app2 by lia. rewrite Nat.sub_diag. cbn [nth_error bind].
    rewrite Hlen, nth_error_app2 by lia.
    rewrite Nat.sub_diag. cbn [nth_error bind].
    destruct (body_step m f s Hs) as [Hbody Hs'].
    rewrite Hbody. cbn [bind].
    specialize (IH fs (pm ++ [m]) (pf ++ [f]) (step m f s)).
    rewrite !length_app in IH. cbn [length] in IH.
    rewrite <- !app_assoc in IH. cbn [app] in IH.
    replace (N.of_nat (length pf) + 1)%N with (N.of_nat (length pm + 1))
      by lia.
    apply IH; [lia | assumption].
Qed.

(** A loop over the bins is a fold over the pairs of a magnitude and its
    frequency. *)
Lemma for_each_bin_fold (magnitudes frequencies : list R) (s : S) :
  I s ->
  for_each_bin magnitudes frequencies body s
  = Some (fold_left (fun s bin => step (fst bin) (snd bin) s)
            (combine magnitudes frequencies) s).
Proof.
  intros Hs. unfold for_each_bin, for_range, Vec.size.
  replace (N.to_nat
             (N.min (N.of_nat (length magnitudes))
                (N.of_nat (length frequencies)) - 0))
    with (Nat.min (length magnitudes) (length frequencies)) by lia.
  apply (for_count_bins magnitudes frequencies [] [] s); auto.
Qed.

End Bins.

(** ** Band powers *)

Lemma skipn_cons_inv (A : Type) (b : nat) :
  forall (l : list A) (a : A) (rest : list A),
    skipn b l = a :: rest ->
    nth_error l b = Some a /\ skipn (S b) l = rest /\ (b < length l)%nat.
Proof.
  induction b as [| b IH]; intros l a rest H.
  - destruct l as [| a' l]; [discriminate |].
    cbn in H. injection H as -> ->. cbn. repeat split. lia.
  - destruct l as [| a' l]; [discriminate |].
    cbn [skipn] in H. destruct (IH l a rest H) as (Hn & Hs & Hl).
    cbn [nth_error length]. repeat split; [assumption | assumption | lia].
Qed.

Lemma add_power_length (b : option nat) (power : R) (bandpowers : list R) :
  length (add_power b power bandpowers) = length bandpowers.
Proof. destruct b; cbn [add_power]; [apply upd_length | reflexivity]. Qed.

Lemma band_loop_spec (freq power : R) (bandpowers : list R) :
  length bandpowers = length FREQ_BANDS ->
  forall (rest : list (R * R)) (b : nat),
    skipn b FREQ_BANDS = rest ->
    band_loop (length rest) (N.of_nat b) freq power bandpowers
    = Some (add_power (first_band rest b freq) power bandpowers).
Proof.
  intros Hlen rest. induction rest as [| band rest IH]; intros b Hskip.
  - reflexivity.
  - destruct (skipn_cons_inv _ b FREQ_BANDS _ _ Hskip) as (Hnth & Hrest & Hb).
    cbn [length band_loop first_band].
    unfold Vec.get at 1. rewrite Nat2N.id, Hnth. cbn [bind].
    destruct (in_band freq band).
    + rewrite (get_some bandpowers (N.of_nat b) 0)
        by (unfold Vec.size; lia).
      cbn [bind]. rewrite set_some by (unfold Vec.size; lia).
      now rewrite Nat2N.id.
    + replace (N.of_nat b + 1)%N with (N.of_nat (S b)) by lia.
      apply IH. assumption.
Qed.

(** [compute_bandpower] adds the squared magnitude of every bin to the
    first band, in the order of [FREQ_BANDS], whose interval contains the
    frequency of the bin, and to no band when there is none. *)
Lemma compute_bandpower_first_match (magnitudes frequencies : list R) :
  compute_bandpower magnitudes frequencies
  = Some (bandpower_reference magnitudes frequencies).
Proof.
  unfold compute_bandpower, bandpower_reference.
  destruct magnitudes as [| m0 ms]; [reflexivity |].
  destruct frequencies as [| f0 fs]; [reflexivity |].
  cbn [Vec.empty orb].
  apply (for_each_bin_fold
           (fun s : list R => length s = length FREQ_BANDS)
           (fun m f bandpowers =>
              band_loop (N.to_nat (Vec.size FREQ_BANDS)) 0%N f (m * m)
                bandpowers)
           (fun m f bandpowers =>
              add_power (band_of f) (m * m) bandpowers)).
  - intros m f s Hs. split.
    + apply (band_loop_spec f (m * m) s Hs FREQ_BANDS 0). reflexivity.
    + now rewrite add_power_length.
  - reflexivity.
Qed.

Lemma in_band_true (freq lo hi : R) :
  lo <= freq -> freq < hi -> in_band freq (lo, hi) = true.
Proof.
  intros H1 H2. unfold in_band. cbn [fst snd].
  destruct (Rge_dec freq lo); [| lra].
  destruct (Rlt_dec freq hi); [reflexivity | lra].
Qed.

Lemma in_band_false (freq lo hi : R) :
  freq < lo \/ hi <= freq -> in_band freq (lo, hi) = false.
Proof.
  intros H. unfold in_band. cbn [fst snd].
  destruct (Rge_dec freq lo); destruct (Rlt_dec freq hi);
    try reflexivity; lra.
Qed.

(** A frequency of 10000 Hz or more is in no band. *)
Lemma band_of_above (freq : R) : 10000 <= freq -> band_of freq = None.
Proof.
  intros H. unfold band_of, FREQ_BANDS. cbn [first_band].
  rewrite !in_band_false by lra. reflexivity.
Qed.

(** A frequency in [[2000, 10000)] is in the last band. *)
Lemma band_of_last (freq : R) :
  2000 <= freq < 10000 -> band_of freq = Some 4%nat.
Proof.
  intros H. unfold band_of, FREQ_BANDS. cbn [first_band].
  rewrite !in_band_false by lra.
  rewrite in_band_true by lra. reflexivity.
Qed.

Lemma band_of_first (freq : R) :
  0 <= freq < 100 -> band_of freq = Some 0%nat.
Proof.
  intros H. unfold band_of, FREQ_BANDS. cbn [first_band].
  rewrite in_band_true by lra. reflexivity.
Qed.

(** ** A window whose spectrum has a bin above 10 kHz *)

Lemma cx_abs_one : Cx.abs Cx.one = 1.
Proof.
  unfold Cx.abs, Cx.one, Cx.re, Cx.im. cbn [fst snd].
  replace (1 * 1 + 0 * 0) with 1 by ring. apply sqrt_1.
Qed.

(** The transform of the unit impulse is 1 at every frequency. *)
Lemma dft_impulse (k : nat) : dft (pad [1; 0; 0; 0] 4) k = Cx.one.
Proof.
  unfold dft, pad. cbn [map length Nat.sub repeat app cx_sum nth INR].
  replace (- (2 * Rtrigo1.PI * INR k * 0 / (1 + 1 + 1 + 1))) with 0
    by (unfold Rdiv; ring).
  rewrite cis_0.
  unfold Cx.of_real, Cx.mul, Cx.add, Cx.zero, Cx.one, Cx.re, Cx.im, cis.
  cbn [fst snd]. f_equal; ring.
Qed.

Lemma compute_fft_impulse_48kHz :
  compute_fft (mkFeatureExtractor 48000) [1; 0; 0; 0]
  = Some ([1 / 4; 1 / 2], [0; 12000]).
Proof.
  rewrite (compute_fft_padded _ _ 2);
    [| discriminate | cbn; lia | lia | reflexivity].
  unfold one_sided_spectrum. change (2 ^ 2)%nat with 4%nat.
  change (4 / 2)%nat with 2%nat. cbn [seq map sample_rate_].
  unfold spectrum_magnitude, spectrum_frequency. cbn [Nat.eqb].
  rewrite !dft_list_nth by (cbn; lia).
  rewrite !dft_impulse, cx_abs_one.
  cbn [INR].
  replace (1 / (1 + 1 + 1 + 1)) with (1 / 4) by lra.
  replace (1 * 2 / (1 + 1 + 1 + 1)) with (1 / 2) by lra.
  replace (0 * (48000 / (1 + 1 + 1 + 1))) with 0 by lra.
  replace (1 * (48000 / (1 + 1 + 1 + 1))) with 12000 by lra.
  reflexivity.
Qed.

(** C2, at a rate of 48 kHz: the window [1, 0, 0, 0] has a spectrum with a
    bin of magnitude 1/2 at 12000 Hz; the frequency is at or above 2000 Hz,
    yet [compute_bandpower] counts the power 1/4 of this bin in no band,
    the final band included. *)
Theorem compute_bandpower_misses_bin_above_10kHz :
  compute_fft (mkFeatureExtractor 48000) [1; 0; 0; 0]
  = Some ([1 / 4; 1 / 2], [0; 12000])
  /\ 2000 <= 12000
  /\ band_of 12000 = None
  /\ compute_bandpower [1 / 4; 1 / 2] [0; 12000]
     = Some [1 / 16; 0; 0; 0; 0].
Proof.
  split; [apply compute_fft_impulse_48kHz |].
  split; [lra |].
  split; [apply band_of_above; lra |].
  rewrite compute_bandpower_first_match. unfold bandpower_reference.
  cbn [combine fold_left fst snd].
  rewrite (band_of_first 0) by lra. rewrite (band_of_above 12000) by lra.
  cbn [add_power Vec.upd nth]. do 2 f_equal. lra.
Qed.

(** ** The transform and the spectrum, as claimed *)

(** C5: on a complex buffer whose length is a power of two (at most
    [2^62], beyond which no buffer fits a 64-bit address space) the
    iterative in-place transform ends and leaves, at every index [k], the
    forward discrete Fourier transform
    [X[k] = sum over n of x[n] * e^(-2 pi i k n / N)]. *)
Theorem fft_recursive_computes_dft (B : nat) (x : list Cx.complex) :
  length x = (2 ^ B)%nat ->
  (B <= 62)%nat ->
  exists X,
    fft_recursive x = Some X
    /\ length X = length x
    /\ forall k : nat, (k < length x)%nat -> nth k X Cx.zero = dft x k.
Proof.
  intros Hlen HB.
  exists (dft_list x).
  split; [now apply (fft_recursive_dft_list B) |].
  split; [apply dft_list_length |].
  intros k Hk. now apply dft_list_nth.
Qed.

Example fft_recursive_computes_dft_pair :
  exists X,
    fft_recursive [(1, 0); (0, 0)] = Some X
    /\ length X = 2%nat
    /\ forall k : nat,
         (k < 2)%nat -> nth k X Cx.zero = dft [(1, 0); (0, 0)] k.
Proof.
  apply (fft_recursive_computes_dft 1 [(1, 0); (0, 0)]).
  - reflexivity.
  - lia.
Defined.

(** C1: on a non-empty window (of at most [2^62] samples) [compute_fft]
    returns [N / 2] magnitudes and [N / 2] frequencies, [N] being the least
    power of two that is no smaller than the length of the window; with
    [X] the transform of the window padded with zeros to [N] elements, the
    magnitude of the bin [k >= 1] is [|X[k]| * 2 / N], that of the bin 0 is
    [|X[0]| / N], and the frequency of the bin [k] is
    [k * (sample_rate / N)]. *)
Theorem compute_fft_one_sided_spectrum
  (this : FeatureExtractor) (signal : list R) :
  signal <> [] ->
  (Vec.size signal <= 2 ^ 62)%N ->
  exists (B : nat) (X : list Cx.complex) (magnitudes frequencies : list R),
    next_power_of_2 (Vec.size signal) = Some (N.of_nat (2 ^ B))
    /\ (length signal <= 2 ^ B < 2 * length signal)%nat
    /\ fft_recursive (pad signal (2 ^ B)) = Some X
    /\ (forall k : nat,
          (k < 2 ^ B)%nat -> nth k X Cx.zero = dft (pad signal (2 ^ B)) k)
    /\ compute_fft this signal = Some (magnitudes, frequencies)
    /\ length magnitudes = (2 ^ B / 2)%nat
    /\ length frequencies = (2 ^ B / 2)%nat
    /\ forall k : nat,
         (k < 2 ^ B / 2)%nat ->
         ((1 <= k)%nat ->
          nth k magnitudes 0 = Cx.abs (nth k X Cx.zero) * 2 / INR (2 ^ B))
         /\ (k = 0%nat ->
             nth k magnitudes 0 = Cx.abs (nth 0 X Cx.zero) / INR (2 ^ B))
         /\ nth k frequencies 0
            = INR k * (sample_rate_ this / INR (2 ^ B)).
Proof.
  intros Hne Hsize.
  destruct (padded_length signal Hne Hsize) as (B & HB & Hrun & Hle & Hlt).
  pose proof (pad_length signal (2 ^ B) Hle) as Hpad.
  exists B, (dft_list (pad signal (2 ^ B))).
  eexists. eexists.
  split; [exact Hrun |].
  split; [lia |].
  split; [now apply (fft_recursive_dft_list B) |].
  split.
  { intros k Hk. apply dft_list_nth. now rewrite Hpad. }
  split.
  { rewrite (compute_fft_padded this signal B) by assumption.
    unfold one_sided_spectrum. reflexivity. }
  split; [now rewrite length_map, length_seq |].
  split; [now rewrite length_map, length_seq |].
  intros k Hk.
  rewrite (nth_indep (map (spectrum_magnitude _ _) _) 0
             (spectrum_magnitude (dft_list (pad signal (2 ^ B))) (2 ^ B) 0))
    by (now rewrite length_map, length_seq).
  rewrite (nth_indep (map (spectrum_frequency _ _) _) 0
             (spectrum_frequency (sample_rate_ this) (2 ^ B) 0))
    by (now rewrite length_map, length_seq).
  rewrite (map_nth (spectrum_magnitude _ _) (seq 0 (2 ^ B / 2)) 0%nat k).
  rewrite (map_nth (spectrum_frequency _ _) (seq 0 (2 ^ B / 2)) 0%nat k).
  rewrite seq_nth by assumption. cbn [Nat.add].
  unfold spectrum_magnitude, spectrum_frequency.
  split; [| split].
  - intros H1. destruct (Nat.eqb_spec k 0); [lia | reflexivity].
  - intros ->. reflexivity.
  - reflexivity.
Qed.

Example compute_fft_one_sided_spectrum_3 :
  exists magnitudes frequencies : list R,
    compute_fft (mkFeatureExtractor 5000) [1; 2; 3]
    = Some (magnitudes, frequencies)
    /\ length magnitudes = length frequencies.
Proof.
  destruct (compute_fft_one_sided_spectrum (mkFeatureExtractor 5000)
              [1; 2; 3])
    as (B & X & m & f & _ & _ & _ & _ & Hrun & Hm & Hf & _).
  - discriminate.
  - cbn. lia.
  - exists m, f. split; [exact Hrun | congruence].
Defined.

(** * Binary64: where rounding departs from exact arithmetic

    The properties above and below that speak of the value of a sum, a
    quotient or a root are proved over exact arithmetic.  What follows
    evaluates the binary64 functions on windows where the rounded result
    leaves them. *)






(** The peak of that window is [|0.3|], so the RMS exceeds the peak and
    the crest factor is below 1; on [1, 0, 0] the crest factor exceeds
    the rounded root of 3. *)
Lemma rms_peak_crest_binary64 :
  Binary64.compute_peak (repeat 0.3%float 3) = PrimFloat.abs 0.3%float
  /\ PrimFloat.ltb (Binary64.compute_peak (repeat 0.3%float 3))
       (Binary64.compute_rms (repeat 0.3%float 3)) = true
  /\ Binary64.compute_crest_factor (repeat 0.3%float 3)
     = 0.99999999999999978%float
  /\ PrimFloat.ltb (PrimFloat.sqrt 3%float)
       (Binary64.compute_crest_factor [1; 0; 0]%float) = true.
Proof. repeat split; vm_compute; reflexivity. Qed.

(** A sum of squares that overflows gives an infinite RMS. *)
Lemma compute_rms_overflow_binary64 :
  Binary64.compute_rms [1e200%float] = PrimFloat.infinity.
Proof. vm_compute. reflexivity. Qed.

(** The kurtosis falls below -2, the skewness of equal samples is 1, and
    neither survives a shift of the samples to the last digit. *)
Lemma moments_binary64 :
  PrimFloat.ltb
    (Binary64.compute_kurtosis [1.1; 0.7; 1.1; 0.7; 1.1; 0.7; 1.1; 0.7]%float)
    (-2)%float = true
  /\ Binary64.compute_skewness (repeat 12345.6%float 1024) = 1%float
  /\ PrimFloat.eqb
       (Binary64.compute_kurtosis [1; 2; 4; 8; 16]%float)
       (Binary64.compute_kurtosis
          (map (fun s => (s + 0.1)%float) [1; 2; 4; 8; 16]%float))
     = false.
Proof. repeat split; vm_compute; reflexivity. Qed.

(** Scaling the samples by [0.1] does not scale the RMS by [0.1]. *)
Lemma compute_rms_scaling_binary64 :
  PrimFloat.eqb
    (Binary64.compute_rms (map (fun s => (0.1 * s)%float) [1; 2; 3]%float))
    (0.1 * Binary64.compute_rms [1; 2; 3]%float)%float
  = false.
Proof. vm_compute. reflexivity. Qed.

(** The centroid leaves the range of the frequencies, and the spread
    exceeds its width. *)
Lemma centroid_spread_binary64 :
  Binary64.compute_spectral_centroid [1.4; 0]%float [2308.5; 809.7]%float
  = Some 2308.5000000000005%float
  /\ Binary64.compute_spectral_centroid [1.1; 0.7; 0.3]%float
       [1250; 1250; 1250]%float
     = Some 1249.9999999999998%float
  /\ Binary64.compute_spectral_spread [2.63; 0]%float
       [40.24; 1003.21]%float 1003.21%float
     = Some 962.97000000000014%float
  /\ PrimFloat.ltb (1003.21 - 40.24)%float 962.97000000000014%float = true.
Proof. repeat split; vm_compute; reflexivity. Qed.

(** The band powers, added up, differ from the total power the centroid
    accumulates over the same bins. *)
Lemma compute_bandpower_sum_binary64 :
  Binary64.compute_bandpower [0.1; 0.7; 0.3; 1.1; 0.9; 0.01]%float
    [50; 150; 60; 2500; 70; 700]%float
  = Some [0.91000000000000003; 0.48999999999999994; 0.0001; 0;
          1.2100000000000002]%float
  /\ fold_left (fun sum power => (sum + power)%float)
       [0.91000000000000003; 0.48999999999999994; 0.0001; 0;
        1.2100000000000002]%float 0%float
     = 2.6101000000000001%float
  /\ fold_left (fun total_power m => (total_power + m * m)%float)
       [0.1; 0.7; 0.3; 1.1; 0.9; 0.01]%float 0%float
     = 2.6101000000000005%float.
Proof. repeat split; vm_compute; reflexivity. Qed.

(** * Further properties *)

(** ** The stored rate *)

(** X1: no extractor a program can hold stores a rate that compares
    [<= 0]: the constructor and [set_sample_rate] keep this invariant in
    binary64, also through calls that throw. *)
Theorem reachable_rate_not_le_0 (this : Binary64.FeatureExtractor) :
  reachable this ->
  PrimFloat.leb (Binary64.get_sample_rate this) 0%float = false.
Proof.
  intros H. induction H as [r this Hc | r this Hreach IH].
  - unfold Binary64.construct in Hc.
    destruct (PrimFloat.leb r 0%float) eqn:Hle; [discriminate |].
    injection Hc as <-. exact Hle.
  - unfold Binary64.set_sample_rate.
    destruct (PrimFloat.leb r 0%float) eqn:Hle; cbn [fst].
    + exact IH.
    + exact Hle.
Qed.

Example reachable_rate_not_le_0_after_failed_update :
  PrimFloat.leb
    (Binary64.get_sample_rate
       (fst (Binary64.set_sample_rate (-3)%float
               (fst (Binary64.set_sample_rate 1000%float
                       (Binary64.mkFeatureExtractor 5000%float))))))
    0%float
  = false.
Proof.
  apply reachable_rate_not_le_0.
  apply reachable_set. apply reachable_set.
  apply (reachable_construct 5000%float).
  vm_compute. reflexivity.
Defined.

(** The invariant is not positivity: NaN is not [<= 0], so the constructor
    and [set_sample_rate] accept it, and the stored rate is then not
    above 0 either. *)
Lemma not_a_number_rate_accepted :
  Binary64.construct PrimFloat.nan
  = Returns (Binary64.mkFeatureExtractor PrimFloat.nan)
  /\ Binary64.set_sample_rate PrimFloat.nan
       (Binary64.mkFeatureExtractor 5000%float)
     = (Binary64.mkFeatureExtractor PrimFloat.nan, Returns tt)
  /\ PrimFloat.ltb 0%float PrimFloat.nan = false.
Proof. repeat split. Qed.

(** ** Peak, RMS and crest factor on every window *)

Lemma Rdiv_le_bound (a b n : R) : 0 < n -> a <= b * n -> a / n <= b.
Proof.
  intros Hn H. apply Rmult_le_reg_r with n; [assumption |].
  unfold Rdiv. rewrite Rmult_assoc, Rinv_l by lra. lra.
Qed.

Lemma Rdiv_ge_bound (a b n : R) : 0 < n -> b * n <= a -> b <= a / n.
Proof.
  intros Hn H. apply Rmult_le_reg_r with n; [assumption |].
  unfold Rdiv. rewrite Rmult_assoc, Rinv_l by lra. lra.
Qed.

Lemma std_max_cases (a b : R) :
  a <= std_max a b /\ b <= std_max a b
  /\ (std_max a b = a \/ std_max a b = b).
Proof.
  unfold std_max. destruct (Rlt_dec a b); repeat split; try lra; auto.
Qed.

Lemma fold_max_bounds (l : list R) :
  forall a : R,
    a <= fold_left (fun max_abs s => std_max max_abs (Rabs s)) l a
    /\ (forall s, In s l ->
         Rabs s <= fold_left (fun max_abs s => std_max max_abs (Rabs s)) l a)
    /\ (fold_left (fun max_abs s => std_max max_abs (Rabs s)) l a = a
        \/ exists s,
             In s l
             /\ fold_left (fun max_abs s => std_max max_abs (Rabs s)) l a
                = Rabs s).
Proof.
  induction l as [| x l IH]; intros a; cbn [fold_left].
  - repeat split; [lra | intros s [] | now left].
  - destruct (IH (std_max a (Rabs x))) as (Hge & Hall & Hatt).
    destruct (std_max_cases a (Rabs x)) as (Ha & Hx & Hcase).
    repeat split.
    + lra.
    + intros s [<- | Hs]; [lra | now apply Hall].
    + destruct Hatt as [Heq | (s & Hs & Heq)].
      * destruct Hcase as [Hc | Hc].
        -- left. congruence.
        -- right. exists x. split; [now left | congruence].
      * right. exists s. split; [now right | assumption].
Qed.

Lemma compute_peak_is_max_abs_aux (signal : list R) :
  (forall s, In s signal -> Rabs s <= compute_peak signal)
  /\ (signal <> [] ->
      exists s, In s signal /\ compute_peak signal = Rabs s)
  /\ 0 <= compute_peak signal.
Proof.
  unfold compute_peak. destruct signal as [| x l].
  - cbn. repeat split; [intros s [] | congruence | lra].
  - cbn [Vec.empty].
    destruct (fold_max_bounds (x :: l) 0) as (Hge & Hall & Hatt).
    repeat split; [exact Hall | | exact Hge].
    intros _. destruct Hatt as [Heq | Hex]; [| exact Hex].
    exists x. split; [now left |].
    pose proof (Hall x (or_introl eq_refl)) as Hx.
    pose proof (Rabs_pos x). lra.
Qed.

(** X2: the peak of a window is its largest absolute sample: no sample
    exceeds it in absolute value, and on a non-empty window some sample
    attains it. *)
Theorem compute_peak_is_max_abs (signal : list R) :
  (forall s, In s signal -> Rabs s <= compute_peak signal)
  /\ (signal <> [] ->
      exists s, In s signal /\ compute_peak signal = Rabs s).
Proof.
  destruct (compute_peak_is_max_abs_aux signal) as (Hall & Hatt & _).
  split; assumption.
Qed.

Example compute_peak_is_max_abs_pair :
  exists s, In s [1; -2] /\ compute_peak [1; -2] = Rabs s.
Proof.
  apply (compute_peak_is_max_abs [1; -2]). discriminate.
Defined.








(** ** Moments *)

Lemma sum_list_app_cons (x : R) (l : list R) :
  sum_list (x :: l) = x + sum_list l.
Proof. reflexivity. Qed.





Lemma size_ltb_length (A : Type) (v : list A) (k : nat) :
  (Vec.size v <? N.of_nat k)%N = (length v <? k)%nat.
Proof.
  unfold Vec.size.
  destruct (N.ltb_spec (N.of_nat (length v)) (N.of_nat k));
    destruct (Nat.ltb_spec (length v) k); try reflexivity; lia.
Qed.

Lemma compute_kurtosis_deviations (signal : list R) :
  compute_kurtosis signal = kurtosis_of_deviations (deviations signal).
Proof.
  unfold compute_kurtosis, kurtosis_of_deviations, deviations.
  rewrite length_map. change 4%N with (N.of_nat 4). rewrite size_ltb_length.
  destruct (length signal <? 4)%nat; [reflexivity |].
  rewrite fold_left_sum, to_double_size.
  replace (0 + sum_list signal) with (sum_list signal) by lra.
  fold (mean_of signal).
  rewrite (fold_left_moments
             (fun s => (s - mean_of signal) * (s - mean_of signal))
             (fun s => (s - mean_of signal) * (s - mean_of signal)
                       * ((s - mean_of signal) * (s - mean_of signal)))).
  rewrite !map_map. cbv zeta.
  set (s2 := sum_list (map _ signal)).
  set (s4 := sum_list (map _ signal)).
  replace (0 + s2) with s2 by lra.
  replace (0 + s4) with s4 by lra.
  reflexivity.
Qed.

Lemma compute_skewness_deviations (signal : list R) :
  compute_skewness signal = skewness_of_deviations (deviations signal).
Proof.
  unfold compute_skewness, skewness_of_deviations, deviations.
  rewrite length_map. change 3%N with (N.of_nat 3). rewrite size_ltb_length.
  destruct (length signal <? 3)%nat; [reflexivity |].
  rewrite fold_left_sum, to_double_size.
  replace (0 + sum_list signal) with (sum_list signal) by lra.
  fold (mean_of signal).
  rewrite (fold_left_moments
             (fun s => (s - mean_of signal) * (s - mean_of signal))
             (fun s => (s - mean_of signal) * (s - mean_of signal)
                       * (s - mean_of signal))).
  rewrite !map_map. cbv zeta.
  set (s2 := sum_list (map _ signal)).
  set (s3 := sum_list (map _ signal)).
  replace (0 + s2) with s2 by lra.
  replace (0 + s3) with s3 by lra.
  reflexivity.
Qed.



Lemma sum_list_map_opp (l : list R) :
  sum_list (map Ropp l) = - sum_list l.
Proof.
  induction l as [| x l IH].
  - cbn. lra.
  - cbn [map]. rewrite !sum_list_app_cons, IH. lra.
Qed.


Lemma deviations_opp (l : list R) :
  deviations (map Ropp l) = map Ropp (deviations l).
Proof.
  unfold deviations. rewrite !map_map. apply map_ext. intros s.
  unfold mean_of. rewrite sum_list_map_opp, length_map.
  unfold Rdiv. ring.
Qed.


(** X8: negating every sample leaves the kurtosis as it is and negates
    the skewness. *)
Theorem kurtosis_even_skewness_odd (signal : list R) :
  compute_kurtosis (map Ropp signal) = compute_kurtosis signal
  /\ compute_skewness (map Ropp signal) = - compute_skewness signal.
Proof.
  rewrite !compute_kurtosis_deviations, !compute_skewness_deviations.
  rewrite deviations_opp.
  set (d := deviations signal).
  unfold kurtosis_of_deviations, skewness_of_deviations.
  rewrite !length_map, !map_map.
  replace (map (fun a => - a * - a) d) with (map (fun a => a * a) d)
    by (apply map_ext; intros; ring).
  replace (map (fun a => - a * - a * (- a * - a)) d)
    with (map (fun a => a * a * (a * a)) d)
    by (apply map_ext; intros; ring).
  replace (map (fun a => - a * - a * - a) d)
    with (map Ropp (map (fun a => a * a * a) d))
    by (rewrite map_map; apply map_ext; intros; ring).
  rewrite sum_list_map_opp.
  split; [reflexivity |].
  destruct (length d <? 3)%nat; [lra |]. cbv zeta.
  destruct (Rlt_dec _ epsilon); [lra |].
  unfold Rdiv. ring.
Qed.

(** ** Scaling a window *)



(** ** The padded length and bit reversal *)

(** X10: on a size of at most [2^63] the padding loop leaves, within 64
    passes, with the least power of two that is no smaller than the
    size. *)
Theorem next_power_of_2_least (n : N) :
  (n <= 2 ^ 63)%N ->
  exists j : nat,
    next_power_of_2 n = Some (2 ^ N.of_nat j)%N
    /\ (forall fuel, (64 <= fuel)%nat ->
          next_power_of_2_loop fuel 1%N n = Some (2 ^ N.of_nat j)%N)
    /\ (n <= 2 ^ N.of_nat j)%N
    /\ forall i : nat,
         (n <= 2 ^ N.of_nat i)%N -> (2 ^ N.of_nat j <= 2 ^ N.of_nat i)%N.
Proof.
  intros Hn.
  destruct (next_power_of_2_spec n Hn) as (j & Hj & Hrun & Hge & Hmin).
  exists j. split; [exact Hrun |]. split; [| split; [exact Hge |]].
  - intros fuel Hfuel.
    destruct (next_power_of_2_loop_spec 63 0 fuel n)
      as (j' & _ & Hrun' & _); try lia.
    unfold next_power_of_2, loop_fuel in Hrun.
    destruct (next_power_of_2_loop_spec 63 0 65 n)
      as (j'' & _ & Hrun'' & _); try lia.
    change (2 ^ N.of_nat 0)%N with 1%N in *.
    assert (Hsame : forall f, (64 <= f)%nat ->
                     next_power_of_2_loop f 1%N n
                     = next_power_of_2_loop 64 1%N n).
    { clear. intros f Hf.
      assert (Hmono : forall a p r,
                 next_power_of_2_loop a p n = Some r ->
                 forall b, (a <= b)%nat ->
                           next_power_of_2_loop b p n = Some r).
      { induction a as [| a IH]; intros p r Ha b Hab; [discriminate |].
        destruct b as [| b]; [lia |]. cbn [next_power_of_2_loop] in *.
        destruct (p <? n)%N; [| exact Ha].
        apply (IH _ _ Ha). lia. }
      destruct (next_power_of_2_loop 64 1%N n) as [r |] eqn:E.
      - apply (Hmono 64%nat 1%N r E f Hf).
      - destruct (next_power_of_2_loop f 1%N n) as [r |] eqn:E';
          [| reflexivity].
        destruct (N.le_gt_cases n (2 ^ 63)) as [Hle | Hgt].
        + destruct (next_power_of_2_loop_spec 63 0 64 n)
            as (j0 & _ & H0 & _); try lia.
          change (2 ^ N.of_nat 0)%N with 1%N in H0. congruence.
        + rewrite next_power_of_2_diverges in E' by assumption.
          discriminate. }
    rewrite (Hsame fuel Hfuel), <- (Hsame 65%nat) by lia. exact Hrun.
  - intros i Hi.
    destruct Hmin as [Hlt | ->].
    + assert (H : (2 ^ N.of_nat j < 2 ^ N.of_nat (S i))%N).
      { rewrite (Nat2N.inj_succ i), N.pow_succ_r'. lia. }
      apply N.pow_lt_mono_r_iff in H; [| lia].
      apply N.pow_le_mono_r; lia.
    + apply N.pow_le_mono_r; lia.
Qed.

Example next_power_of_2_least_5 :
  exists j : nat, next_power_of_2 5 = Some (2 ^ N.of_nat j)%N.
Proof.
  destruct (next_power_of_2_least 5) as (j & H & _).
  - cbn. lia.
  - exists j. exact H.
Defined.

(** X11: on a size above [2^63] the padding loop never leaves: [p]
    doubles up to [2^63], wraps to 0 and stays below the size. *)
Theorem next_power_of_2_never_returns (n : N) :
  (2 ^ 63 < n)%N ->
  forall fuel : nat, next_power_of_2_loop fuel 1%N n = None.
Proof.
  intros Hn fuel. change 1%N with (2 ^ N.of_nat 0)%N.
  apply (next_power_of_2_loop_diverges n 63 Hn). reflexivity.
Qed.

Example next_power_of_2_never_returns_max :
  next_power_of_2 (2 ^ 63 + 1) = None.
Proof.
  apply (next_power_of_2_never_returns (2 ^ 63 + 1)). cbn. lia.
Defined.

(** X12: for at most 64 bits, [bit_reverse] maps the values below
    [2^bits] to values below [2^bits] and is its own inverse there: it
    is a permutation of the indices of a buffer of [2^bits] elements. *)
Theorem bit_reverse_involutive (i bits : N) :
  (bits <= 64)%N -> (i < 2 ^ bits)%N ->
  (bit_reverse i bits < 2 ^ bits)%N
  /\ bit_reverse (bit_reverse i bits) bits = i.
Proof.
  intros Hb Hi.
  rewrite <- (N2Nat.id i), <- (N2Nat.id bits) in *.
  set (b := N.to_nat bits) in *. set (k := N.to_nat i) in *.
  assert (Hb' : (b <= 64)%nat) by lia.
  rewrite !bit_reverse_spec by assumption.
  rewrite pow2_of_nat in *.
  split.
  - pose proof (rev_bits_lt b k). lia.
  - rewrite rev_bits_involutive by lia. reflexivity.
Qed.

Example bit_reverse_involutive_6 :
  bit_reverse (bit_reverse 6 3) 3 = 6%N.
Proof.
  apply (bit_reverse_involutive 6 3); cbn; lia.
Defined.

(** ** The spectrum *)

Lemma map_seq_nth (A : Type) (f : nat -> A) (n k : nat) (d : A) :
  (k < n)%nat -> nth k (map f (seq 0 n)) d = f k.
Proof.
  intros Hk.
  rewrite (nth_indep _ d (f 0%nat)) by (now rewrite length_map, length_seq).
  rewrite (map_nth f (seq 0 n) 0%nat k), seq_nth by assumption.
  reflexivity.
Qed.

(** On a non-empty window of at most [2^62] samples [compute_fft] returns
    the one-sided spectrum at the padded length. *)
Lemma compute_fft_returns (this : FeatureExtractor) (signal : list R) :
  signal <> [] ->
  (Vec.size signal <= 2 ^ 62)%N ->
  exists B : nat,
    (B <= 62)%nat
    /\ (length signal <= 2 ^ B < 2 * length signal)%nat
    /\ compute_fft this signal
       = Some (one_sided_spectrum (sample_rate_ this) signal (2 ^ B)).
Proof.
  intros Hne Hsize.
  destruct (padded_length signal Hne Hsize) as (B & HB & Hrun & Hle & Hlt).
  exists B. split; [assumption |]. split; [lia |].
  now apply compute_fft_padded.
Qed.

(** X13: with a positive rate, the frequencies [compute_fft] returns start
    at 0, increase strictly and stay below half the rate, and there are as
    many of them as magnitudes, none of which is negative. *)
Theorem compute_fft_frequency_axis
  (this : FeatureExtractor) (signal : list R) :
  signal <> [] ->
  (Vec.size signal <= 2 ^ 62)%N ->
  0 < sample_rate_ this ->
  exists magnitudes frequencies : list R,
    compute_fft this signal = Some (magnitudes, frequencies)
    /\ length magnitudes = length frequencies
    /\ (forall k, (k < length frequencies)%nat ->
          0 <= nth k frequencies 0 < sample_rate_ this / 2)
    /\ (forall j k, (j < k < length frequencies)%nat ->
          nth j frequencies 0 < nth k frequencies 0)
    /\ (forall k, (k < length magnitudes)%nat -> 0 <= nth k magnitudes 0).
Proof.
  intros Hne Hsize Hrate.
  destruct (compute_fft_returns this signal Hne Hsize)
    as (B & HB & Hlen & Hrun).
  rewrite Hrun. unfold one_sided_spectrum.
  pose proof (pow2_pos B) as Hpos.
  set (n := (2 ^ B)%nat) in *.
  assert (Hn : 0 < INR n) by (apply lt_0_INR; lia).
  assert (Hstep : 0 < sample_rate_ this / INR n).
  { apply Rdiv_lt_0_compat; assumption. }
  eexists. eexists. split; [reflexivity |].
  rewrite !length_map, !length_seq.
  split; [reflexivity |]. split; [| split].
  - intros k Hk. rewrite map_seq_nth by assumption.
    unfold spectrum_frequency.
    pose proof (pos_INR k) as Hk0.
    assert (H2k : 2 * INR k < INR n).
    { replace (2 * INR k) with (INR (2 * k))
        by (rewrite mult_INR; reflexivity).
      apply lt_INR. lia. }
    split; [nra |].
    apply Rmult_lt_reg_r with (INR n); [assumption |].
    replace (INR k * (sample_rate_ this / INR n) * INR n)
      with (INR k * sample_rate_ this) by (field; lra).
    nra.
  - intros j k Hjk. rewrite !map_seq_nth by lia.
    unfold spectrum_frequency.
    apply Rmult_lt_compat_r; [assumption |]. apply lt_INR. lia.
  - intros k Hk. rewrite map_seq_nth by assumption.
    unfold spectrum_magnitude, Cx.abs.
    destruct (k =? 0)%nat.
    + apply Rdiv_ge_bound; [assumption |].
      rewrite Rmult_0_l. apply sqrt_pos.
    + apply Rdiv_ge_bound; [assumption |].
      rewrite Rmult_0_l.
      pose proof (sqrt_pos (Cx.re (nth k (dft_list (pad signal n)) Cx.zero)
                            * Cx.re (nth k (dft_list (pad signal n)) Cx.zero)
                            + Cx.im (nth k (dft_list (pad signal n)) Cx.zero)
                              * Cx.im (nth k (dft_list (pad signal n))
                                         Cx.zero))).
      lra.
Qed.

Example compute_fft_frequency_axis_3 :
  exists magnitudes frequencies : list R,
    compute_fft (mkFeatureExtractor 5000) [1; 2; 3]
    = Some (magnitudes, frequencies)
    /\ length magnitudes = length frequencies.
Proof.
  destruct (compute_fft_frequency_axis (mkFeatureExtractor 5000) [1; 2; 3])
    as (m & f & Hrun & Hlen & _).
  - discriminate.
  - cbn. lia.
  - cbn. lra.
  - exists m, f. split; assumption.
Defined.












(** ** The half of the transform that [compute_fft] discards *)










(** ** Centroid and spread *)

Lemma fold_bins_sums (F G : R * R -> R) (l : list (R * R)) :
  forall a b : R,
    fold_left (fun s bin => (fst s + F bin, snd s + G bin)) l (a, b)
    = (a + sum_list (map F l), b + sum_list (map G l)).
Proof.
  unfold sum_list. induction l as [| x l IH]; intros a b; cbn.
  - f_equal; lra.
  - rewrite IH. f_equal; lra.
Qed.

Lemma total_power_nonneg (bins : list (R * R)) : 0 <= total_power bins.
Proof.
  unfold total_power, sum_list.
  induction bins as [| b bins IH]; cbn; [lra | nra].
Qed.

Lemma compute_spectral_centroid_reference (magnitudes frequencies : list R) :
  compute_spectral_centroid magnitudes frequencies
  = Some (centroid_reference magnitudes frequencies).
Proof.
  unfold compute_spectral_centroid, centroid_reference.
  destruct (Vec.empty magnitudes || Vec.empty frequencies);
    [reflexivity |].
  rewrite (for_each_bin_fold (fun _ => True)
             (fun m f '(weighted_sum, total_power) =>
                let power := m * m in
                Some (weighted_sum + f * power, total_power + power))
             (fun m f s =>
                (fst s + f * (m * m), snd s + m * m))).
  - cbn [bind].
    rewrite (fold_bins_sums (fun bin => snd bin * (fst bin * fst bin))
               (fun bin => fst bin * fst bin)).
    fold (weighted_frequency (combine magnitudes frequencies)).
    fold (total_power (combine magnitudes frequencies)).
    rewrite !Rplus_0_l. cbv zeta.
    destruct (Rlt_dec _ epsilon); reflexivity.
  - intros m f [ws tp] _. split; [reflexivity | exact I].
  - exact I.
Qed.

Lemma compute_spectral_spread_reference
  (magnitudes frequencies : list R) (c : R) :
  compute_spectral_spread magnitudes frequencies c
  = Some (spread_reference magnitudes frequencies c).
Proof.
  unfold compute_spectral_spread, spread_reference.
  destruct (Vec.empty magnitudes || Vec.empty frequencies);
    [reflexivity |].
  rewrite (for_each_bin_fold (fun _ => True)
             (fun m f '(weighted_var, total_power) =>
                let power := m * m in
                let diff := f - c in
                Some (weighted_var + diff * diff * power,
                      total_power + power))
             (fun m f s =>
                (fst s + (f - c) * (f - c) * (m * m), snd s + m * m))).
  - cbn [bind].
    rewrite (fold_bins_sums
               (fun bin => (snd bin - c) * (snd bin - c)
                           * (fst bin * fst bin))
               (fun bin => fst bin * fst bin)).
    fold (weighted_variance c (combine magnitudes frequencies)).
    fold (total_power (combine magnitudes frequencies)).
    rewrite !Rplus_0_l. cbv zeta.
    destruct (Rlt_dec _ epsilon); reflexivity.
  - intros m f [wv tp] _. split; [reflexivity | exact I].
  - exact I.
Qed.

Lemma weighted_frequency_bounds (lo hi : R) (bins : list (R * R)) :
  (forall bin, In bin bins -> lo <= snd bin <= hi) ->
  lo * total_power bins <= weighted_frequency bins <= hi * total_power bins.
Proof.
  unfold total_power, weighted_frequency, sum_list.
  induction bins as [| b bins IH]; intros H; cbn [map fold_right].
  - lra.
  - assert (Hb := H b (or_introl eq_refl)).
    assert (IH' := IH (fun bin Hin => H bin (or_intror Hin))).
    pose proof (Rle_0_sqr (fst b)) as Hp. unfold Rsqr in Hp.
    assert (lo * (fst b * fst b) <= snd b * (fst b * fst b))
      by (apply Rmult_le_compat_r; lra).
    assert (snd b * (fst b * fst b) <= hi * (fst b * fst b))
      by (apply Rmult_le_compat_r; lra).
    lra.
Qed.

Lemma weighted_variance_bounds (lo hi c : R) (bins : list (R * R)) :
  lo <= c <= hi ->
  (forall bin, In bin bins -> lo <= snd bin <= hi) ->
  0 <= weighted_variance c bins
  <= (hi - lo) * (hi - lo) * total_power bins.
Proof.
  intros Hc.
  unfold total_power, weighted_variance, sum_list.
  induction bins as [| b bins IH]; intros H; cbn [map fold_right].
  - lra.
  - assert (Hb := H b (or_introl eq_refl)).
    assert (IH' := IH (fun bin Hin => H bin (or_intror Hin))).
    pose proof (Rle_0_sqr (fst b)) as Hp. unfold Rsqr in Hp.
    pose proof (Rle_0_sqr (snd b - c)) as Hd. unfold Rsqr in Hd.
    assert (Hd' : (snd b - c) * (snd b - c) <= (hi - lo) * (hi - lo)).
    { assert (0 <= (hi - lo - (snd b - c)) * (hi - lo + (snd b - c)))
        by (apply Rmult_le_pos; lra).
      lra. }
    pose proof (Rmult_le_pos _ _ Hd Hp).
    pose proof (Rmult_le_compat_r _ _ _ Hp Hd').
    lra.
Qed.

Lemma in_combine_frequency (magnitudes frequencies : list R)
  (bin : R * R) :
  In bin (combine magnitudes frequencies) -> In (snd bin) frequencies.
Proof.
  destruct bin as [m f]. apply in_combine_r.
Qed.

Lemma compute_spectral_centroid_reference_bounds
  (magnitudes frequencies : list R) (lo hi : R) :
  (forall f, In f frequencies -> lo <= f <= hi) ->
  centroid_reference magnitudes frequencies = 0
  \/ lo <= centroid_reference magnitudes frequencies <= hi.
Proof.
  intros Hf. unfold centroid_reference.
  destruct (Vec.empty magnitudes || Vec.empty frequencies); [now left |].
  set (bins := combine magnitudes frequencies).
  destruct (Rlt_dec (total_power bins) epsilon) as [_ | Hp]; [now left |].
  right. pose proof epsilon_pos as Heps.
  destruct (weighted_frequency_bounds lo hi bins) as [Hlo Hhi].
  { intros bin Hin. apply Hf. now apply (in_combine_frequency magnitudes). }
  split.
  - apply Rdiv_ge_bound; lra.
  - apply Rdiv_le_bound; lra.
Qed.

Lemma compute_spectral_spread_reference_bounds
  (magnitudes frequencies : list R) (c lo hi : R) :
  lo <= c <= hi ->
  (forall f, In f frequencies -> lo <= f <= hi) ->
  0 <= spread_reference magnitudes frequencies c <= hi - lo.
Proof.
  intros Hc Hf. unfold spread_reference.
  destruct (Vec.empty magnitudes || Vec.empty frequencies); [lra |].
  set (bins := combine magnitudes frequencies).
  destruct (Rlt_dec (total_power bins) epsilon) as [_ | Hp]; [lra |].
  pose proof epsilon_pos as Heps.
  destruct (weighted_variance_bounds lo hi c bins Hc) as [Hlo Hhi].
  { intros bin Hin. apply Hf. now apply (in_combine_frequency magnitudes). }
  split; [apply sqrt_pos |].
  rewrite <- (sqrt_square (hi - lo)) by lra.
  apply sqrt_le_1_alt. apply Rdiv_le_bound; lra.
Qed.





(** ** Band powers, band by band *)

(** The bands are disjoint and follow one another from 0 to 10000 Hz. *)
Lemma band_of_cases (f : R) :
  band_of f
  = if Rlt_dec f 0 then None
    else if Rlt_dec f 100 then Some 0%nat
    else if Rlt_dec f 500 then Some 1%nat
    else if Rlt_dec f 1000 then Some 2%nat
    else if Rlt_dec f 2000 then Some 3%nat
    else if Rlt_dec f 10000 then Some 4%nat
    else None.
Proof.
  unfold band_of, FREQ_BANDS. cbn [first_band].
  destruct (Rlt_dec f 0);
    [rewrite !in_band_false by lra; reflexivity |].
  destruct (Rlt_dec f 100);
    [rewrite in_band_true by lra; reflexivity |].
  rewrite (in_band_false f 0 100) by lra.
  destruct (Rlt_dec f 500);
    [rewrite in_band_true by lra; reflexivity |].
  rewrite (in_band_false f 100 500) by lra.
  destruct (Rlt_dec f 1000);
    [rewrite in_band_true by lra; reflexivity |].
  rewrite (in_band_false f 500 1000) by lra.
  destruct (Rlt_dec f 2000);
    [rewrite in_band_true by lra; reflexivity |].
  rewrite (in_band_false f 1000 2000) by lra.
  destruct (Rlt_dec f 10000);
    [rewrite in_band_true by lra; reflexivity |].
  rewrite (in_band_false f 2000 10000) by lra. reflexivity.
Qed.

Lemma band_of_lt (f : R) (k : nat) :
  band_of f = Some k -> (k < 5)%nat.
Proof.
  rewrite band_of_cases.
  repeat (destruct (Rlt_dec _ _); try discriminate;
          try (intros [= <-]; lia)).
Qed.

(** Since the bands are disjoint, the first band that contains a
    frequency is the only one. *)
Lemma in_band_band_of (f : R) (b : nat) :
  (b < 5)%nat ->
  in_band f (nth b FREQ_BANDS (0, 0))
  = match band_of f with
    | Some k => (b =? k)%nat
    | None => false
    end.
Proof.
  intros Hb. rewrite band_of_cases.
  destruct b as [| [| [| [| [| b]]]]]; [| | | | | lia];
    cbn [nth FREQ_BANDS];
    repeat (destruct (Rlt_dec _ _)); cbn [Nat.eqb];
    first [apply in_band_true; lra | apply in_band_false; lra].
Qed.

Lemma sum_list_upd (l : list R) (i : nat) (v : R) :
  (i < length l)%nat ->
  sum_list (Vec.upd l i v) = sum_list l - nth i l 0 + v.
Proof.
  revert i. induction l as [| x l IH]; intros i Hi; cbn [length] in Hi.
  - lia.
  - destruct i as [| i]; cbn [Vec.upd nth]; rewrite !sum_list_app_cons.
    + lra.
    + rewrite IH by lia. lra.
Qed.

Lemma bandpower_fold_per_band (bins : list (R * R)) :
  forall bandpowers : list R,
    length bandpowers = 5%nat ->
    let result :=
      fold_left
        (fun bandpowers bin =>
           add_power (band_of (snd bin)) (fst bin * fst bin) bandpowers)
        bins bandpowers in
    length result = 5%nat
    /\ (forall b, (b < 5)%nat ->
          nth b result 0 = nth b bandpowers 0 + band_power_of b bins)
    /\ sum_list result = sum_list bandpowers + banded_power bins.
Proof.
  unfold band_power_of, banded_power.
  induction bins as [| bin bins IH]; intros bp Hlen; cbv zeta;
    cbn [fold_left map].
  - split; [assumption |]. split; [intros; cbn; lra | cbn; lra].
  - set (bp' := add_power (band_of (snd bin)) (fst bin * fst bin) bp).
    assert (Hlen' : length bp' = 5%nat)
      by (unfold bp'; now rewrite add_power_length).
    destruct (IH bp' Hlen') as (Hl & Hnth & Hsum).
    split; [exact Hl |]. split.
    + intros b Hb. rewrite (Hnth b Hb).
      rewrite (in_band_band_of (snd bin) b Hb).
      unfold bp'. destruct (band_of (snd bin)) as [k |] eqn:Hk;
        cbn [add_power].
      * apply band_of_lt in Hk.
        rewrite upd_nth by lia.
        destruct (Nat.eqb_spec b k) as [-> | Hne];
          rewrite ?sum_list_app_cons; lra.
      * rewrite ?sum_list_app_cons. lra.
    + rewrite Hsum. unfold bp'.
      destruct (band_of (snd bin)) as [k |] eqn:Hk; cbn [add_power];
        rewrite ?sum_list_app_cons.
      * apply band_of_lt in Hk. rewrite sum_list_upd by lia. lra.
      * lra.
Qed.



Lemma compute_bandpower_summary (magnitudes frequencies : list R) :
  exists bandpowers : list R,
    compute_bandpower magnitudes frequencies = Some bandpowers
    /\ length bandpowers = 5%nat
    /\ (forall b, (b < 5)%nat ->
          nth b bandpowers 0
          = band_power_of b (combine magnitudes frequencies))
    /\ sum_list bandpowers
       = banded_power (combine magnitudes frequencies).
Proof.
  rewrite compute_bandpower_first_match. unfold bandpower_reference.
  eexists. split; [reflexivity |].
  destruct (bandpower_fold_per_band (combine magnitudes frequencies)
              [0; 0; 0; 0; 0] eq_refl) as (Hl & Hnth & Hsum).
  split; [exact Hl |]. split.
  - intros b Hb. rewrite (Hnth b Hb).
    do 5 (destruct b as [| b]; [cbn [nth]; lra |]). lia.
  - rewrite Hsum. cbn. lra.
Qed.

(** X19: [compute_bandpower] always returns five powers, and the power of
    the band [b] is the sum of the squared magnitudes of the bins whose
    frequency lies in the half-open interval of that band. *)
Theorem compute_bandpower_per_band (magnitudes frequencies : list R) :
  exists bandpowers : list R,
    compute_bandpower magnitudes frequencies = Some bandpowers
    /\ length bandpowers = 5%nat
    /\ forall b, (b < 5)%nat ->
         nth b bandpowers 0
         = band_power_of b (combine magnitudes frequencies).
Proof.
  destruct (compute_bandpower_summary magnitudes frequencies)
    as (bp & Hrun & Hlen & Hnth & _).
  exists bp. repeat split; assumption.
Qed.




(** ** The whole record on a non-empty window *)

Lemma spectrum_frequency_range (rate : R) (n k : nat) :
  0 < rate -> (k < n / 2)%nat ->
  0 <= spectrum_frequency rate n k
  <= spectrum_frequency rate n (n / 2 - 1)
  /\ spectrum_frequency rate n (n / 2 - 1) < rate / 2.
Proof.
  intros Hrate Hk. unfold spectrum_frequency.
  assert (Hn : 0 < INR n) by (apply lt_0_INR; lia).
  assert (Hstep : 0 < rate / INR n) by (now apply Rdiv_lt_0_compat).
  pose proof (pos_INR k) as Hk0.
  assert (Hle : INR k <= INR (n / 2 - 1)) by (apply le_INR; lia).
  assert (H2 : 2 * INR (n / 2 - 1) < INR n).
  { replace (2 * INR (n / 2 - 1)) with (INR (2 * (n / 2 - 1)))
      by (rewrite mult_INR; reflexivity).
    apply lt_INR. lia. }
  repeat split.
  - nra.
  - apply Rmult_le_compat_r; lra.
  - apply Rmult_lt_reg_r with (INR n); [assumption |].
    replace (INR (n / 2 - 1) * (rate / INR n) * INR n)
      with (INR (n / 2 - 1) * rate) by (field; lra).
    nra.
Qed.


(** What [extract_all] returns on a non-empty window of at most [2^62]
    samples, field by field. *)
Lemma extract_all_fields (this : FeatureExtractor) (signal : list R) :
  signal <> [] ->
  (Vec.size signal <= 2 ^ 62)%N ->
  exists (B : nat) (bandpowers : list R),
    let spectrum := one_sided_spectrum (sample_rate_ this) signal (2 ^ B) in
    let centroid := centroid_reference (fst spectrum) (snd spectrum) in
    (length signal <= 2 ^ B < 2 * length signal)%nat
    /\ compute_bandpower (fst spectrum) (snd spectrum) = Some bandpowers
    /\ extract_all this signal
       = Some (mkSignalFeatures
                 (compute_rms signal) (compute_peak signal)
                 (compute_crest_factor signal) (compute_kurtosis signal)
                 (compute_skewness signal) centroid
                 (spread_reference (fst spectrum) (snd spectrum) centroid)
                 (fst spectrum) (snd spectrum) bandpowers get_band_names).
Proof.
  intros Hne Hsize.
  destruct (compute_fft_returns this signal Hne Hsize)
    as (B & HB & Hlen & Hrun).
  destruct (compute_bandpower_summary
              (fst (one_sided_spectrum (sample_rate_ this) signal (2 ^ B)))
              (snd (one_sided_spectrum (sample_rate_ this) signal (2 ^ B))))
    as (bp & Hbp & _).
  exists B, bp. cbv zeta.
  split; [exact Hlen |]. split; [exact Hbp |].
  unfold extract_all. rewrite Hrun. cbn [bind].
  destruct (one_sided_spectrum (sample_rate_ this) signal (2 ^ B))
    as [m f] eqn:Hspec.
  cbn [fst snd] in *.
  rewrite compute_spectral_centroid_reference. cbn [bind].
  rewrite compute_spectral_spread_reference. cbn [bind].
  rewrite Hbp. reflexivity.
Qed.

(** X22: on a non-empty window of at most [2^62] samples, with a positive
    rate, [extract_all] returns a record: its two spectrum sequences have
    one length, it has five band powers and five band names, and its
    centroid and spread lie between 0 and half the rate. *)
Theorem extract_all_returns_well_formed
  (this : FeatureExtractor) (signal : list R) :
  signal <> [] ->
  (Vec.size signal <= 2 ^ 62)%N ->
  0 < sample_rate_ this ->
  exists features : SignalFeatures,
    extract_all this signal = Some features
    /\ length (fft_magnitude features) = length (fft_frequencies features)
    /\ length (bandpowers features) = 5%nat
    /\ length (band_names features) = 5%nat
    /\ 0 <= spectral_centroid features < sample_rate_ this / 2
    /\ 0 <= spectral_spread features < sample_rate_ this / 2.
Proof.
  intros Hne Hsize Hrate.
  destruct (extract_all_fields this signal Hne Hsize)
    as (B & bp & Hlen & Hbp & Hrun).
  cbv zeta in *. rewrite Hrun. eexists. split; [reflexivity |].
  cbn [fft_magnitude fft_frequencies bandpowers band_names
       spectral_centroid spectral_spread].
  set (rate := sample_rate_ this) in *.
  set (n := (2 ^ B)%nat) in *.
  unfold one_sided_spectrum in *. cbn [fst snd] in *.
  set (m := map (spectrum_magnitude (dft_list (pad signal n)) n)
              (seq 0 (n / 2))) in *.
  set (f := map (spectrum_frequency rate n) (seq 0 (n / 2))) in *.
  split; [unfold m, f; now rewrite !length_map |].
  split.
  { destruct (compute_bandpower_summary m f) as (bp' & Hbp' & Hl & _).
    congruence. }
  split; [reflexivity |].
  set (hi := spectrum_frequency rate n (n / 2 - 1)).
  assert (Hhalf : 0 < rate / 2) by lra.
  destruct (Nat.eq_dec (n / 2) 0) as [Hzero | Hpos].
  { unfold m, f. rewrite Hzero. cbn. lra. }
  assert (Hf : forall x, In x f -> 0 <= x <= hi).
  { intros x Hx. unfold f in Hx. apply in_map_iff in Hx.
    destruct Hx as (k & <- & Hk). apply in_seq in Hk.
    apply spectrum_frequency_range; [assumption | lia]. }
  assert (Hhi : 0 <= hi < rate / 2).
  { destruct (spectrum_frequency_range rate n 0 Hrate) as [[H0 H1] H2];
      [lia |].
    fold hi in H1, H2. lra. }
  assert (Hc : 0 <= centroid_reference m f <= hi).
  { destruct (compute_spectral_centroid_reference_bounds m f 0 hi Hf)
      as [-> | H]; lra. }
  split; [lra |].
  destruct (compute_spectral_spread_reference_bounds m f
              (centroid_reference m f) 0 hi Hc Hf) as [H0 H1].
  lra.
Qed.

Example extract_all_returns_well_formed_3 :
  exists features : SignalFeatures,
    extract_all (mkFeatureExtractor 5000) [1; 2; 3] = Some features
    /\ length (bandpowers features) = 5%nat.
Proof.
  destruct (extract_all_returns_well_formed (mkFeatureExtractor 5000)
              [1; 2; 3]) as (features & Hrun & _ & Hbp & _).
  - discriminate.
  - cbn. lia.
  - cbn. lra.
  - exists features. split; assumption.
Defined.



(** * The command-line tool *)

(** ** Trimming *)

Lemma find_not_of_none (value : string) :
  forall i : nat,
    (Cli.find_first_not_of value i = None
     <-> Cli.find_last_not_of value i = None)
    /\ (Cli.find_last_not_of value i = None ->
        drop_trailing_spaces value = EmptyString
        /\ drop_spaces value = EmptyString).
Proof.
  induction value as [| c rest IH]; intros i; cbn.
  - repeat split; reflexivity.
  - destruct (IH (S i)) as [Hiff Hnone].
    destruct (Cli.find_last_not_of rest (S i)) as [j |] eqn:Hlast.
    + destruct (Cli.is_space c).
      * split; [| discriminate].
        rewrite Hiff. reflexivity.
      * split; [| discriminate]. split; discriminate.
    + destruct (Hnone eq_refl) as [Htrail Hlead].
      destruct (Cli.is_space c).
      * split; [tauto |]. intros _. rewrite Htrail.
        split; [reflexivity | assumption].
      * split; [split; discriminate | discriminate].
Qed.

Lemma find_last_not_of_prefix (value : string) :
  forall i b : nat,
    Cli.find_last_not_of value i = Some b ->
    (i <= b)%nat
    /\ substring 0 (b - i + 1) value = drop_trailing_spaces value
    /\ drop_trailing_spaces value <> EmptyString.
Proof.
  induction value as [| c rest IH]; intros i b H; cbn in H.
  - discriminate.
  - cbn [drop_trailing_spaces].
    destruct (Cli.find_last_not_of rest (S i)) as [j |] eqn:Hlast.
    + injection H as <-.
      destruct (IH (S i) j Hlast) as (Hle & Hsub & Hne).
      replace (j - i + 1)%nat with (S (j - S i + 1)) by lia.
      cbn [substring]. rewrite Hsub.
      destruct (drop_trailing_spaces rest) as [| d t];
        [contradiction |].
      repeat split; [lia | discriminate].
    + destruct (find_not_of_none rest (S i)) as [_ Hnone].
      destruct (Hnone Hlast) as [Htrail _]. rewrite Htrail.
      destruct (Cli.is_space c); [discriminate |].
      injection H as <-.
      replace (i - i + 1)%nat with 1%nat by lia.
      cbn [substring]. destruct rest; repeat split; try lia; discriminate.
Qed.

(** The substring between the first and the last character that is not
    white space is the trimmed value. *)
Lemma substring_trim (value : string) :
  forall i a b : nat,
    Cli.find_first_not_of value i = Some a ->
    Cli.find_last_not_of value i = Some b ->
    (i <= a)%nat
    /\ substring (a - i) (b - a + 1) value = trim value
    /\ trim value <> EmptyString.
Proof.
  unfold trim.
  induction value as [| c rest IH]; intros i a b Hfirst Hlast.
  - discriminate.
  - cbn [Cli.find_first_not_of drop_spaces] in *.
    destruct (Cli.is_space c) eqn:Hc.
    + assert (Hlast' : Cli.find_last_not_of rest (S i) = Some b).
      { cbn [Cli.find_last_not_of] in Hlast.
        destruct (Cli.find_last_not_of rest (S i)); [assumption |].
        rewrite Hc in Hlast. discriminate. }
      destruct (IH (S i) a b Hfirst Hlast') as (Hle & Hsub & Hne).
      replace (a - i)%nat with (S (a - S i)) by lia.
      cbn [substring]. repeat split; [lia | assumption | assumption].
    + injection Hfirst as <-.
      destruct (find_last_not_of_prefix (String c rest) i b Hlast)
        as (Hle & Hsub & Hne).
      rewrite Nat.sub_diag. repeat split; [lia | assumption | assumption].
Qed.

Lemma token_step_field (stod : string -> option R) (value : string)
  (signal : list R) :
  Cli.token_step stod value signal
  = Some (signal ++ field_samples stod value).
Proof.
  unfold Cli.token_step, field_samples.
  destruct (Cli.find_first_not_of value 0) as [a |] eqn:Hfirst.
  - destruct (Cli.find_last_not_of value 0) as [b |] eqn:Hlast.
    + destruct (substring_trim value 0 a b Hfirst Hlast)
        as (_ & Hsub & Hne).
      rewrite Nat.sub_0_r in Hsub. rewrite Hsub.
      destruct (trim value) as [| c t]; [contradiction |].
      cbn [Cli.is_empty negb].
      destruct (stod (String c t)); [reflexivity |].
      now rewrite app_nil_r.
    + destruct (find_not_of_none value 0) as [[_ Hback] _].
      rewrite (Hback Hlast) in Hfirst. discriminate.
  - assert (Hlast : Cli.find_last_not_of value 0 = None).
    { destruct (find_not_of_none value 0) as [[Hforth _] _].
      now apply Hforth. }
    destruct (find_not_of_none value 0) as [_ Hnone].
    destruct (Hnone Hlast) as [_ Hlead].
    unfold trim. rewrite Hlead. cbn. now rewrite app_nil_r.
Qed.

(** ** Reading comma-separated values *)

Lemma string_length_append (a b : string) :
  String.length (String.append a b) = (String.length a + String.length b)%nat.
Proof. induction a as [| c a IH]; cbn; [reflexivity | now rewrite IH]. Qed.

Lemma take_until_app (d : Ascii.ascii) (f rest : string) :
  has_char d f = false ->
  Cli.take_until d (String.append f (String d rest)) = (f, rest).
Proof.
  induction f as [| c f IH]; intros H; cbn in *.
  - now rewrite Ascii.eqb_refl.
  - apply orb_false_iff in H. destruct H as [Hc Hf].
    rewrite Hc, (IH Hf). reflexivity.
Qed.

Lemma take_until_whole (d : Ascii.ascii) (f : string) :
  has_char d f = false -> Cli.take_until d f = (f, EmptyString).
Proof.
  induction f as [| c f IH]; intros H; cbn in *.
  - reflexivity.
  - apply orb_false_iff in H. destruct H as [Hc Hf].
    rewrite Hc, (IH Hf). reflexivity.
Qed.

Lemma getline_append (d : Ascii.ascii) (f rest : string) :
  has_char d f = false ->
  Cli.getline d (String.append f (String d rest)) = Some (f, rest).
Proof.
  intros H. unfold Cli.getline.
  rewrite <- (take_until_app d f rest H).
  destruct f; reflexivity.
Qed.

Lemma has_char_csv_line (d : Ascii.ascii) (row : list string) :
  d <> Cli.comma ->
  (forall field, In field row -> has_char d field = false) ->
  has_char d (csv_line row) = false.
Proof.
  intros Hd. induction row as [| f [| g rest] IH]; intros H.
  - reflexivity.
  - apply H. now left.
  - change (csv_line (f :: g :: rest))
      with (String.append f (String Cli.comma (csv_line (g :: rest)))).
    assert (Hf : has_char d f = false) by (apply H; now left).
    assert (Hrest : has_char d (csv_line (g :: rest)) = false).
    { apply IH. intros field Hin. apply H. now right. }
    clear IH H.
    induction f as [| c f IHf]; cbn [String.append has_char] in *.
    + rewrite Hrest, orb_false_r.
      destruct (Ascii.eqb_spec Cli.comma d) as [e | e];
        [symmetry in e; contradiction | reflexivity].
    + apply orb_false_iff in Hf. destruct Hf as [Hc Hf].
      rewrite Hc. cbn [orb]. apply IHf. assumption.
Qed.

Lemma while_getline_step (S : Type) (fuel : nat) (d : Ascii.ascii)
  (stream : string) (body : string -> S -> option S) (s : S) :
  Cli.while_getline (Datatypes.S fuel) d stream body s
  = match Cli.getline d stream with
    | None => Some s
    | Some (value, rest) =>
        s' <- body value s ;; Cli.while_getline fuel d rest body s'
    end.
Proof. reflexivity. Qed.

Section ReadSignal.

Variable stod : string -> option R.

Lemma while_getline_fields (row : list string) :
  (forall field, In field row -> has_char Cli.comma field = false) ->
  forall (fuel : nat) (signal : list R),
    (String.length (csv_line row) < fuel)%nat ->
    Cli.while_getline fuel Cli.comma (csv_line row) (Cli.token_step stod)
      signal
    = Some (signal ++ flat_map (field_samples stod) row).
Proof.
  induction row as [| f [| g rest] IH]; intros H fuel signal Hfuel.
  - destruct fuel as [| fuel]; [lia |]. cbn. now rewrite app_nil_r.
  - cbn [csv_line flat_map] in *. rewrite app_nil_r.
    destruct fuel as [| fuel]; [lia |]. cbn [Cli.while_getline].
    destruct f as [| c t].
    + cbn. now rewrite app_nil_r.
    + unfold Cli.getline.
      rewrite take_until_whole by (apply H; now left).
      rewrite token_step_field. cbn [bind].
      cbn [String.length] in Hfuel.
      destruct fuel as [| fuel]; [lia |]. reflexivity.
  - change (csv_line (f :: g :: rest))
      with (String.append f (String Cli.comma (csv_line (g :: rest))))
      in *.
    rewrite string_length_append in Hfuel. cbn [String.length] in Hfuel.
    destruct fuel as [| fuel]; [lia |]. cbn [Cli.while_getline].
    rewrite getline_append by (apply H; now left).
    rewrite token_step_field. cbn [bind].
    rewrite IH; [| intros field Hin; apply H; now right | lia].
    cbn [flat_map]. now rewrite <- !app_assoc.
Qed.

Lemma while_getline_rows (rows : list (list string)) :
  (forall row field,
      In row rows -> In field row ->
      has_char Cli.comma field = false
      /\ has_char Cli.newline field = false) ->
  forall (fuel : nat) (signal : list R),
    (String.length (csv_text rows) < fuel)%nat ->
    Cli.while_getline fuel Cli.newline (csv_text rows)
      (fun line signal =>
         Cli.while_getline (S (String.length line)) Cli.comma line
           (Cli.token_step stod) signal)
      signal
    = Some (signal ++ flat_map (field_samples stod) (concat rows)).
Proof.
  induction rows as [| row rows IH]; intros H fuel signal Hfuel.
  - destruct fuel as [| fuel]; [lia |]. cbn. now rewrite app_nil_r.
  - cbn [csv_text] in *.
    rewrite string_length_append in Hfuel. cbn [String.length] in Hfuel.
    destruct fuel as [| fuel]; [lia |]. rewrite while_getline_step.
    rewrite getline_append.
    2:{ apply has_char_csv_line; [discriminate |].
        intros field Hin. apply (H row field); [now left | assumption]. }
    cbv beta.
    rewrite while_getline_fields;
      [| intros field Hin; apply (H row field); [now left | assumption]
       | lia].
    cbn [bind].
    rewrite IH; [| intros r f Hr Hf; apply (H r f); [now right | assumption]
                 | lia].
    cbn [concat]. rewrite flat_map_app. now rewrite <- app_assoc.
Qed.

(** X24: a file with one line per row, each row a list of fields joined by
    commas, the fields themselves free of commas and line feeds, is read
    field by field, in order: every field contributes the number
    [std::stod] makes of its trimmed text, and a field that is blank or
    that [std::stod] refuses contributes nothing. *)
Theorem read_signal_csv (fs : string -> option string) (filename : string)
  (rows : list (list string)) :
  (forall row field,
      In row rows -> In field row ->
      has_char Cli.comma field = false
      /\ has_char Cli.newline field = false) ->
  fs filename = Some (csv_text rows) ->
  Cli.read_signal stod fs filename
  = Some (Cli.Normal (flat_map (field_samples stod) (concat rows))).
Proof.
  intros Hrows Hfile. unfold Cli.read_signal. rewrite Hfile.
  rewrite while_getline_rows by (try assumption; lia).
  reflexivity.
Qed.

End ReadSignal.

Example read_signal_csv_two_rows :
  Cli.read_signal stod_one_two
    (fun _ => Some (csv_text [["1"; " 2 "]; ["x"; ""]])) "data.csv"
  = Some (Cli.Normal [1; 2]).
Proof.
  apply (read_signal_csv stod_one_two
           (fun _ => Some (csv_text [["1"; " 2 "]; ["x"; ""]])) "data.csv"
           [["1"; " 2 "]; ["x"; ""]]).
  - intros row field Hrow Hfield. cbn [In] in Hrow.
    destruct Hrow as [<- | [<- | []]]; cbn [In] in Hfield;
      destruct Hfield as [<- | [<- | []]]; split; reflexivity.
  - reflexivity.
Defined.

Lemma take_until_length (d : Ascii.ascii) (t v l : string) :
  Cli.take_until d t = (v, l) ->
  (String.length v + String.length l <= String.length t)%nat.
Proof.
  revert v l. induction t as [| a t IHt]; intros v l H;
    cbn [Cli.take_until] in H.
  - injection H as <- <-. cbn. lia.
  - destruct (Ascii.eqb a d).
    + injection H as <- <-. cbn. lia.
    + destruct (Cli.take_until d t) as [v' l'] eqn:E.
      injection H as <- <-. specialize (IHt v' l' eq_refl). cbn. lia.
Qed.

Lemma take_until_consumes (d : Ascii.ascii) (c : Ascii.ascii)
  (t v l : string) :
  Cli.take_until d (String c t) = (v, l) ->
  (String.length v + String.length l <= S (String.length t))%nat
  /\ (String.length l <= String.length t)%nat.
Proof.
  intros H. split.
  - apply (take_until_length d (String c t) v l H).
  - cbn [Cli.take_until] in H. destruct (Ascii.eqb c d).
    + injection H as <- <-. lia.
    + destruct (Cli.take_until d t) as [v' l'] eqn:E.
      injection H as <- <-. apply take_until_length in E. lia.
Qed.

(** A [getline] loop whose body returns on every value returns, within
    the passes the length of the stream allows; an invariant [Q] of the
    body holds at the end, and a measure [m] that a pass raises by at
    most the length of its value has grown by at most the length of the
    stream. *)
Lemma while_getline_returns (S : Type) (body : string -> S -> option S)
  (Q : S -> Prop) (m : S -> nat) (d : Ascii.ascii) :
  (forall value s,
      Q s ->
      exists s', body value s = Some s' /\ Q s'
                 /\ (m s' <= m s + String.length value)%nat) ->
  forall (fuel : nat) (stream : string) (s : S),
    (String.length stream < fuel)%nat -> Q s ->
    exists s', Cli.while_getline fuel d stream body s = Some s' /\ Q s'
               /\ (m s' <= m s + String.length stream)%nat.
Proof.
  intros Hbody. induction fuel as [| fuel IH]; intros stream s Hfuel Hs.
  - lia.
  - rewrite while_getline_step. destruct stream as [| c rest].
    + exists s. cbn. repeat split; [assumption | lia].
    + unfold Cli.getline.
      destruct (Cli.take_until d (String c rest)) as [value remaining]
        eqn:Htake.
      apply take_until_consumes in Htake. destruct Htake as [Hsum Hrem].
      destruct (Hbody value s Hs) as (s1 & Hrun & Hs1 & Hm1).
      rewrite Hrun. cbn [bind].
      cbn [String.length] in Hfuel.
      destruct (IH remaining s1 ltac:(lia) Hs1) as (s2 & Hrun2 & Hs2 & Hm2).
      exists s2. cbn [String.length]. repeat split; [assumption .. | lia].
Qed.

Lemma field_samples_cases (stod : string -> option R) (value : string) :
  field_samples stod value = []
  \/ exists (c : Ascii.ascii) (t : string) (sample : R),
       value = String c t
       /\ stod (trim value) = Some sample
       /\ field_samples stod value = [sample].
Proof.
  unfold field_samples. destruct value as [| c t].
  - left. reflexivity.
  - destruct (Cli.is_empty (trim (String c t))); [now left |].
    destruct (stod (trim (String c t))) as [sample |] eqn:E; [| now left].
    right. exists c, t, sample. repeat split.
Qed.

Lemma token_step_returns (stod : string -> option R) (value : string)
  (signal : list R) :
  Forall (fun sample => exists text, stod text = Some sample) signal ->
  exists signal',
    Cli.token_step stod value signal = Some signal'
    /\ Forall (fun sample => exists text, stod text = Some sample) signal'
    /\ (length signal' <= length signal + String.length value)%nat.
Proof.
  intros Hall. rewrite token_step_field.
  exists (signal ++ field_samples stod value). split; [reflexivity |].
  destruct (field_samples_cases stod value)
    as [-> | (c & t & sample & -> & Hstod & ->)].
  - rewrite app_nil_r. split; [assumption | lia].
  - split.
    + apply Forall_app. split; [assumption |].
      constructor; [| constructor]. eexists. exact Hstod.
    + rewrite length_app. cbn. lia.
Qed.

(** X25: [read_signal] throws only when the file cannot be opened, with
    the file name in the message; on a file it can open it returns,
    whatever the text: every sample it returns is a number [std::stod]
    made of some text, and there are at most as many samples as the
    file has characters. *)
Theorem read_signal_returns (stod : string -> option R)
  (fs : string -> option string) (filename : string) :
  (fs filename = None
   /\ Cli.read_signal stod fs filename
      = Some (Cli.Raised (String.append "Cannot open file: " filename)))
  \/ (exists (content : string) (signal : list R),
         fs filename = Some content
         /\ Cli.read_signal stod fs filename = Some (Cli.Normal signal)
         /\ (length signal <= String.length content)%nat
         /\ Forall (fun sample => exists text, stod text = Some sample)
              signal).
Proof.
  unfold Cli.read_signal. destruct (fs filename) as [content |].
  - right.
    destruct (while_getline_returns (list R)
                (fun line signal =>
                   Cli.while_getline (S (String.length line)) Cli.comma line
                     (Cli.token_step stod) signal)
                (Forall (fun sample => exists text, stod text = Some sample))
                (@length R) Cli.newline)
      with (fuel := S (String.length content)) (stream := content)
           (s := @nil R)
      as (signal & Hrun & Hall & Hlen).
    + intros line signal Hall.
      apply (while_getline_returns (list R) (Cli.token_step stod)
               (Forall (fun sample => exists text, stod text = Some sample))
               (@length R) Cli.comma).
      * intros value s Hs. apply token_step_returns. assumption.
      * lia.
      * assumption.
    + lia.
    + constructor.
    + exists content, signal. rewrite Hrun. cbn [bind].
      repeat split; [exact Hlen | exact Hall].
  - left. split; reflexivity.
Qed.

(** ** The program *)

Lemma parse_args_stop (stod : string -> option R) (n : nat) :
  forall (args : list string) (o : Cli.options) (code : Z)
    (trace : list Cli.event),
    (length args <= n)%nat ->
    Cli.parse_args stod args o = Cli.Stop code trace ->
    (code = 0%Z /\ trace = [Cli.PrintUsage])
    \/ (code = 1%Z /\ existsb is_output trace = false).
Proof.
  induction n as [| n IH]; intros args o code trace Hlen H.
  - destruct args; [discriminate | cbn in Hlen; lia].
  - destruct args as [| arg rest]; [discriminate |].
    cbn [length] in Hlen. cbn [Cli.parse_args] in H.
    destruct (String.eqb arg "-h" || String.eqb arg "--help").
    { injection H as <- <-. left. split; reflexivity. }
    destruct (String.eqb arg "-r" || String.eqb arg "--rate").
    { destruct rest as [| value rest'].
      - injection H as <- <-. right. split; reflexivity.
      - destruct (stod value) as [rate |]; [| discriminate].
        cbn [length] in Hlen. refine (IH _ _ _ _ _ H); lia. }
    destruct (String.eqb arg "-o" || String.eqb arg "--output").
    { destruct rest as [| value rest'].
      - injection H as <- <-. right. split; reflexivity.
      - cbn [length] in Hlen. refine (IH _ _ _ _ _ H); lia. }
    destruct (String.eqb arg "-j" || String.eqb arg "--json").
    { refine (IH _ _ _ _ _ H); lia. }
    destruct (Cli.starts_with_dash arg).
    { injection H as <- <-. right. split; reflexivity. }
    refine (IH _ _ _ _ _ H); lia.
Qed.

Lemma is_empty_false (s : string) :
  Cli.is_empty s = false -> s <> EmptyString.
Proof. destruct s; [discriminate | discriminate]. Qed.

Lemma vec_empty_false (A : Type) (v : list A) :
  Vec.empty v = false -> v <> [].
Proof. destruct v; [discriminate | discriminate]. Qed.

(** X26: [main] returns 0 or 1.  It returns 0 only after printing the
    usage for a help flag, or after writing, as its last action, the
    features [extract_all] computes, with the extractor the constructor
    returned for the rate of the arguments, from the non-empty signal
    read from the input file they name; when it returns 1 it has written
    no features. *)
Theorem main_exit_status (stod : string -> option R)
  (fs : string -> option string) (writable : string -> bool)
  (args : list string) (code : Z) (trace : list Cli.event) :
  Cli.main stod fs writable args = Some (Cli.Exited code trace) ->
  (code = 0%Z
   /\ (trace = [Cli.PrintUsage]
       \/ exists (o : Cli.options) (signal : list R)
            (extractor : FeatureExtractor) (features : SignalFeatures),
            Cli.parse_args stod args Cli.default_options = Cli.Parsed o
            /\ Cli.input_file o <> EmptyString
            /\ Cli.read_signal stod fs (Cli.input_file o)
               = Some (Cli.Normal signal)
            /\ signal <> []
            /\ construct (Cli.sample_rate o) = Returns extractor
            /\ extract_all extractor signal = Some features
            /\ (Cli.output_file o = EmptyString
                \/ writable (Cli.output_file o) = true)
            /\ trace
               = [Cli.ReadSamples (Vec.size signal);
                  Cli.output_event (Cli.json_output o)
                    (if Cli.is_empty (Cli.output_file o) then None
                     else Some (Cli.output_file o))
                    features]))
  \/ (code = 1%Z /\ existsb is_output trace = false).
Proof.
  unfold Cli.main. intros H.
  destruct (Cli.parse_args stod args Cli.default_options)
    as [o | code' trace' |] eqn:Hparse.
  - destruct (Cli.is_empty (Cli.input_file o)) eqn:Hinput.
    { injection H as <- <-. right. split; reflexivity. }
    destruct (Cli.read_signal stod fs (Cli.input_file o))
      as [[signal | what] |] eqn:Hread; cbn [bind] in H;
      [| injection H as <- <-; right; split; reflexivity | discriminate].
    destruct (Vec.empty signal) eqn:Hsignal.
    { injection H as <- <-. right. split; reflexivity. }
    destruct (construct (Cli.sample_rate o)) as [extractor | [what]]
      eqn:Hconstruct.
    2:{ injection H as <- <-. right. split; reflexivity. }
    destruct (extract_all extractor signal)
      as [features |] eqn:Hrun; cbn [bind] in H; [| discriminate].
    destruct (Cli.is_empty (Cli.output_file o)) eqn:Hout.
    + injection H as <- <-. left. split; [reflexivity |]. right.
      exists o, signal, extractor, features.
      split; [reflexivity |].
      split; [apply is_empty_false; assumption |].
      split; [assumption |].
      split; [apply vec_empty_false; assumption |].
      split; [assumption |].
      split; [assumption |].
      split; [| rewrite Hout; reflexivity].
      left. destruct (Cli.output_file o); [reflexivity | discriminate].
    + destruct (writable (Cli.output_file o)) eqn:Hw.
      * injection H as <- <-. left. split; [reflexivity |]. right.
        exists o, signal, extractor, features.
        split; [reflexivity |].
        split; [apply is_empty_false; assumption |].
        split; [assumption |].
        split; [apply vec_empty_false; assumption |].
        split; [assumption |].
        split; [assumption |].
        split; [| rewrite Hout; reflexivity].
        right. assumption.
      * injection H as <- <-. right. split; reflexivity.
  - injection H as <- <-.
    destruct (parse_args_stop stod (length args) args Cli.default_options
                code' trace' (le_n _) Hparse) as [[-> ->] | [-> Hout]].
    + left. split; [reflexivity | now left].
    + right. split; [reflexivity | assumption].
  - discriminate.
Qed.

Example main_exit_status_json_to_file :
  exists features : SignalFeatures,
    (0%Z = 0%Z
     /\ ([Cli.ReadSamples 2; Cli.OutputJson (Some "out.json") features]
         = [Cli.PrintUsage]
         \/ exists (o : Cli.options) (signal : list R)
              (extractor : FeatureExtractor) (features' : SignalFeatures),
              Cli.parse_args stod_one_two
                ["-r"; "2"; "--json"; "data.csv"; "-o"; "out.json"]
                Cli.default_options
              = Cli.Parsed o
              /\ Cli.input_file o <> EmptyString
              /\ Cli.read_signal stod_one_two
                   (fun _ => Some (csv_text [["1"; "2"]]))
                   (Cli.input_file o)
                 = Some (Cli.Normal signal)
              /\ signal <> []
              /\ construct (Cli.sample_rate o) = Returns extractor
              /\ extract_all extractor signal = Some features'
              /\ (Cli.output_file o = EmptyString
                  \/ (fun _ : string => true) (Cli.output_file o) = true)
              /\ [Cli.ReadSamples 2;
                  Cli.OutputJson (Some "out.json") features]
                 = [Cli.ReadSamples (Vec.size signal);
                    Cli.output_event (Cli.json_output o)
                      (if Cli.is_empty (Cli.output_file o) then None
                       else Some (Cli.output_file o))
                      features']))
    \/ (0%Z = 1%Z
        /\ existsb is_output
             [Cli.ReadSamples 2; Cli.OutputJson (Some "out.json") features]
           = false).
Proof.
  destruct (extract_all_fields (mkFeatureExtractor 2) [1; 2])
    as (B & bandpowers & _ & _ & Hrun).
  - discriminate.
  - unfold Vec.size. cbn [length]. lia.
  - eexists.
    apply (main_exit_status stod_one_two
             (fun _ => Some (csv_text [["1"; "2"]])) (fun _ => true)
             ["-r"; "2"; "--json"; "data.csv"; "-o"; "out.json"] 0%Z).
    unfold Cli.main.
    replace (Cli.parse_args stod_one_two
               ["-r"; "2"; "--json"; "data.csv"; "-o"; "out.json"]
               Cli.default_options)
      with (Cli.Parsed (Cli.mkOptions 2 "data.csv" "out.json" true))
      by reflexivity.
    cbn [Cli.input_file Cli.output_file Cli.sample_rate Cli.json_output
         Cli.is_empty].
    replace (Cli.read_signal stod_one_two
               (fun _ => Some (csv_text [["1"; "2"]])) "data.csv")
      with (Some (Cli.Normal [1; 2])) by reflexivity.
    cbn [bind Vec.empty]. unfold construct.
    destruct (Rle_dec 2 0) as [Hle | _]; [lra |].
    rewrite Hrun. reflexivity.
Defined.

(** X27: when the arguments parse, to a positive rate and an input file
    from which [read_signal] returns a non-empty signal of at most
    [2^62] samples, and the output goes to the standard output or to a
    file that can be opened, [main] reports the number of samples,
    writes the features [extract_all] returns, in the chosen format, and
    returns 0. *)
Theorem main_writes_features (stod : string -> option R)
  (fs : string -> option string) (writable : string -> bool)
  (args : list string) (o : Cli.options) (signal : list R) :
  Cli.parse_args stod args Cli.default_options = Cli.Parsed o ->
  Cli.input_file o <> EmptyString ->
  Cli.read_signal stod fs (Cli.input_file o) = Some (Cli.Normal signal) ->
  signal <> [] ->
  (Vec.size signal <= 2 ^ 62)%N ->
  0 < Cli.sample_rate o ->
  Cli.output_file o = EmptyString \/ writable (Cli.output_file o) = true ->
  exists features : SignalFeatures,
    extract_all (mkFeatureExtractor (Cli.sample_rate o)) signal
    = Some features
    /\ Cli.main stod fs writable args
       = Some (Cli.Exited 0
                 [Cli.ReadSamples (Vec.size signal);
                  Cli.output_event (Cli.json_output o)
                    (if Cli.is_empty (Cli.output_file o) then None
                     else Some (Cli.output_file o))
                    features]).
Proof.
  intros Hparse Hinput Hread Hne Hsize Hrate Hout.
  destruct (extract_all_fields (mkFeatureExtractor (Cli.sample_rate o))
              signal Hne Hsize) as (B & bandpowers & _ & _ & Hrun).
  eexists. split; [exact Hrun |].
  unfold Cli.main. rewrite Hparse.
  destruct (Cli.input_file o) as [| c t] eqn:Hfile; [congruence |].
  cbn [Cli.is_empty]. rewrite Hread. cbn [bind].
  destruct signal as [| x signal]; [congruence |]. cbn [Vec.empty].
  unfold construct.
  destruct (Rle_dec (Cli.sample_rate o) 0) as [Hle | _]; [lra |].
  rewrite Hrun. cbn [bind].
  destruct (Cli.is_empty (Cli.output_file o)) eqn:Hempty; [reflexivity |].
  destruct Hout as [Hout | Hout].
  - rewrite Hout in Hempty. discriminate.
  - rewrite Hout. reflexivity.
Qed.

Example main_writes_features_default :
  exists features : SignalFeatures,
    extract_all (mkFeatureExtractor 5000) [1; 2] = Some features
    /\ Cli.main stod_one_two (fun _ => Some (csv_text [["1"; "2"]]))
         (fun _ => false) ["data.csv"]
       = Some (Cli.Exited 0
                 [Cli.ReadSamples 2; Cli.OutputText None features]).
Proof.
  apply (main_writes_features stod_one_two
           (fun _ => Some (csv_text [["1"; "2"]])) (fun _ => false)
           ["data.csv"] (Cli.mkOptions 5000 "data.csv" "" false) [1; 2]).
  - reflexivity.
  - discriminate.
  - reflexivity.
  - discriminate.
  - unfold Vec.size. cbn [length]. lia.
  - cbn [Cli.sample_rate]. lra.
  - left. reflexivity.
Defined.
